(** * kht: keyed hash trees

    A shallow embedding of the Go package [kht] (file [kht.go]) and of its
    tests and benchmark ([TestKey], [TestOffsetTooGreat], [BenchmarkKey]),
    with the properties of the key derivation.

    Definitions:
    - machine integers, bytes and little-endian encoding;
    - [MD5], [SHA256], [HMAC]: the hashes of the tests and of the benchmark
      (RFC 1321, FIPS 180-4, RFC 2104, as [crypto/md5], [crypto/sha256] and
      [crypto/hmac] implement them);
    - [F64]: IEEE binary64 values, on the Standard Library's [spec_float];
    - [Platform]: what the package takes from Go's runtime and [math]
      package, with [portable], an executable instance;
    - the heap of byte arrays and tree objects, slices, and the
      state-and-panic monad the functions run in;
    - [HMAC], [New] and [Key], the functions of the package;
    - the derivation as a function on byte strings, and the walk of the
      specification;
    - the tests and the benchmark, in a monad that adds to the heap what a
      test has reported.

    Properties: of [New]; of the memory operations; of the loop of [Key];
    of binary64 division and conversion; then the properties of [Key]
    (range check, purity, depth zero, key length, depth, the reference
    walk, the test vectors), evaluations on the portable platform, and the
    theorems at the tree of the test.  Further properties: the panics of
    [Key], its rounds of hashing and its allocations, calls one after the
    other, the walk in exact arithmetic, the index buffer, root keys that
    HMAC does not tell apart, the tests and the benchmark. *)

From Stdlib Require Import ZArith List Lia String SpecFloat QArith Qround Qpower.
From stdpp Require Import base option list gmap.
Import ListNotations.
Local Open Scope Z_scope.

(** ** Machine integers and bytes *)

(** A byte is a [Z] in [0, 256); a [uint64] is a [Z] in [0, 2^64). *)
Abbreviation bytes := (list Z).

Definition wrap32 (x : Z) : Z := x mod 2 ^ 32.
Definition wrap64 (x : Z) : Z := x mod 2 ^ 64.

(** [le_bytes n v]: the [n] low bytes of [v], least significant first
    ([binary.LittleEndian]). *)
Fixpoint le_bytes (n : nat) (v : Z) : bytes :=
  match n with
  | O => []
  | S n' => Z.land v 255 :: le_bytes n' (Z.shiftr v 8)
  end.

Fixpoint le_word (bs : bytes) : Z :=
  match bs with
  | [] => 0
  | b :: bs' => Z.lor b (Z.shiftl (le_word bs') 8)
  end.

Definition bytes_of_string (s : string) : bytes :=
  List.map (fun a => Z.of_N (Ascii.N_of_ascii a)) (list_ascii_of_string s).

(** ** MD5 (RFC 1321), the hash [md5.New] of the test *)

Module MD5.

Definition rotl32 (x n : Z) : Z :=
  wrap32 (Z.lor (Z.shiftl x n) (Z.shiftr x (32 - n))).

Definition not32 (x : Z) : Z := Z.lxor x 0xffffffff.

(** The sine table, [floor (2^32 * |sin (i + 1)|)]. *)
Definition T : list Z :=
  [ 0xd76aa478; 0xe8c7b756; 0x242070db; 0xc1bdceee;
    0xf57c0faf; 0x4787c62a; 0xa8304613; 0xfd469501;
    0x698098d8; 0x8b44f7af; 0xffff5bb1; 0x895cd7be;
    0x6b901122; 0xfd987193; 0xa679438e; 0x49b40821;
    0xf61e2562; 0xc040b340; 0x265e5a51; 0xe9b6c7aa;
    0xd62f105d; 0x02441453; 0xd8a1e681; 0xe7d3fbc8;
    0x21e1cde6; 0xc33707d6; 0xf4d50d87; 0x455a14ed;
    0xa9e3e905; 0xfcefa3f8; 0x676f02d9; 0x8d2a4c8a;
    0xfffa3942; 0x8771f681; 0x6d9d6122; 0xfde5380c;
    0xa4beea44; 0x4bdecfa9; 0xf6bb4b60; 0xbebfbc70;
    0x289b7ec6; 0xeaa127fa; 0xd4ef3085; 0x04881d05;
    0xd9d4d039; 0xe6db99e5; 0x1fa27cf8; 0xc4ac5665;
    0xf4292244; 0x432aff97; 0xab9423a7; 0xfc93a039;
    0x655b59c3; 0x8f0ccc92; 0xffeff47d; 0x85845dd1;
    0x6fa87e4f; 0xfe2ce6e0; 0xa3014314; 0x4e0811a1;
    0xf7537e82; 0xbd3af235; 0x2ad7d2bb; 0xeb86d391 ].

(** Rotation amounts, four per round. *)
Definition S : list Z :=
  concat (List.map (fun r => r ++ r ++ r ++ r)
            [ [7; 12; 17; 22]; [5; 9; 14; 20]; [4; 11; 16; 23]; [6; 10; 15; 21] ]).

Record state := St { sa : Z; sb : Z; sc : Z; sd : Z }.

Definition init : state := St 0x67452301 0xefcdab89 0x98badcfe 0x10325476.

(** One of the 64 operations on the 16 words [M] of a block. *)
Definition op (M : list Z) (st : state) (i : Z) : state :=
  let '(St a b c d) := st in
  let '(f, g) :=
    if i <? 16 then (Z.lor (Z.land b c) (Z.land (not32 b) d), i)
    else if i <? 32 then (Z.lor (Z.land d b) (Z.land (not32 d) c), (5 * i + 1) mod 16)
    else if i <? 48 then (Z.lxor (Z.lxor b c) d, (3 * i + 5) mod 16)
    else (Z.lxor c (Z.lor b (not32 d)), (7 * i) mod 16) in
  let n := Z.to_nat i in
  let x := wrap32 (f + a + nth n T 0 + nth (Z.to_nat g) M 0) in
  St d (wrap32 (b + rotl32 x (nth n S 0))) b c.

Fixpoint words (n : nat) (bs : bytes) : list Z :=
  match n with
  | O => []
  | Datatypes.S n' => le_word (take 4 bs) :: words n' (drop 4 bs)
  end.

Definition block (st : state) (blk : bytes) : state :=
  let M := words 16 blk in
  let '(St a b c d) := fold_left (op M) (List.map Z.of_nat (seq 0 64)) st in
  St (wrap32 (sa st + a)) (wrap32 (sb st + b)) (wrap32 (sc st + c)) (wrap32 (sd st + d)).

Fixpoint blocks (n : nat) (st : state) (bs : bytes) : state :=
  match n with
  | O => st
  | Datatypes.S n' => blocks n' (block st (take 64 bs)) (drop 64 bs)
  end.

Definition pad (msg : bytes) : bytes :=
  let len := Z.of_nat (length msg) in
  msg ++ [0x80] ++ replicate (Z.to_nat ((55 - len) mod 64)) 0
      ++ le_bytes 8 (wrap64 (8 * len)).

Definition sum (msg : bytes) : bytes :=
  let p := pad msg in
  let '(St a b c d) := blocks (length p / 64)%nat init p in
  le_bytes 4 a ++ le_bytes 4 b ++ le_bytes 4 c ++ le_bytes 4 d.

Definition Size : nat := 16.
Definition BlockSize : nat := 64.

End MD5.

(** ** SHA-256 (FIPS 180-4), the hash [sha256.New] of the benchmark *)

(** [be_bytes n v]: the [n] low bytes of [v], most significant first
    ([binary.BigEndian]). *)
Definition be_bytes (n : nat) (v : Z) : bytes := rev (le_bytes n v).

Definition be_word (bs : bytes) : Z := le_word (rev bs).

Module SHA256.

Definition rotr32 (x n : Z) : Z :=
  wrap32 (Z.lor (Z.shiftr x n) (Z.shiftl x (32 - n))).

Definition not32 (x : Z) : Z := Z.lxor x 0xffffffff.

(** The first 64 primes. *)
Definition is_prime (n : Z) : bool :=
  forallb (fun d => negb (n mod Z.of_nat d =? 0)) (seq 2 (Z.to_nat n - 2)).

Definition primes : list Z :=
  Eval vm_compute in take 64 (List.filter is_prime (List.map Z.of_nat (seq 2 400))).

(** [root3 n x r]: the integer cube root of [x], from the bits of [r]
    above [2^n] on. *)
Fixpoint root3 (n : nat) (x r : Z) : Z :=
  match n with
  | O => r
  | Datatypes.S n' =>
      let r' := r + 2 ^ Z.of_nat n' in
      root3 n' x (if r' * r' * r' <=? x then r' else r)
  end.

(** The round constants: the first 32 bits of the fractional parts of the
    cube roots of the primes. *)
Definition K : list Z :=
  Eval vm_compute in List.map (fun p => wrap32 (root3 40 (p * 2 ^ 96) 0)) primes.

(** The initial hash value: the first 32 bits of the fractional parts of
    the square roots of the first 8 primes. *)
Definition init : list Z :=
  Eval vm_compute in List.map (fun p => wrap32 (Z.sqrt (p * 2 ^ 64))) (take 8 primes).

Fixpoint words (n : nat) (bs : bytes) : list Z :=
  match n with
  | O => []
  | Datatypes.S n' => be_word (take 4 bs) :: words n' (drop 4 bs)
  end.

(** The message schedule: [w] holds the words so far; word [t] comes from
    those 2, 7, 15 and 16 places back. *)
Definition extend (w : list Z) (t : nat) : list Z :=
  let back (j : nat) := nth (t - j) w 0 in
  let v1 := back 2%nat in
  let t1 := Z.lxor (Z.lxor (rotr32 v1 17) (rotr32 v1 19)) (Z.shiftr v1 10) in
  let v2 := back 15%nat in
  let t2 := Z.lxor (Z.lxor (rotr32 v2 7) (rotr32 v2 18)) (Z.shiftr v2 3) in
  w ++ [wrap32 (t1 + back 7%nat + t2 + back 16%nat)].

Definition schedule (blk : bytes) : list Z :=
  fold_left extend (seq 16 48) (words 16 blk).

(** One of the 64 rounds on the working variables [a .. h]. *)
Definition round (w : list Z) (st : list Z) (i : nat) : list Z :=
  match st with
  | [a; b; c; d; e; f; g; h] =>
      let t1 := h + Z.lxor (Z.lxor (rotr32 e 6) (rotr32 e 11)) (rotr32 e 25)
                + Z.lxor (Z.land e f) (Z.land (not32 e) g)
                + nth i K 0 + nth i w 0 in
      let t2 := Z.lxor (Z.lxor (rotr32 a 2) (rotr32 a 13)) (rotr32 a 22)
                + Z.lxor (Z.lxor (Z.land a b) (Z.land a c)) (Z.land b c) in
      [wrap32 (t1 + t2); a; b; c; wrap32 (d + t1); e; f; g]
  | _ => st
  end.

Definition block (st : list Z) (blk : bytes) : list Z :=
  let w := schedule blk in
  zip_with (fun x y => wrap32 (x + y)) st (fold_left (round w) (seq 0 64) st).

Fixpoint blocks (n : nat) (st : list Z) (bs : bytes) : list Z :=
  match n with
  | O => st
  | Datatypes.S n' => blocks n' (block st (take 64 bs)) (drop 64 bs)
  end.

Definition pad (msg : bytes) : bytes :=
  let len := Z.of_nat (length msg) in
  msg ++ [0x80] ++ replicate (Z.to_nat ((55 - len) mod 64)) 0
      ++ be_bytes 8 (wrap64 (8 * len)).

Definition sum (msg : bytes) : bytes :=
  let p := pad msg in
  concat (List.map (be_bytes 4) (blocks (length p / 64)%nat init p)).

Definition Size : nat := 32.
Definition BlockSize : nat := 64.

End SHA256.


(** ** Hash objects ([hash.Hash]) and keyed hashes

    A [hash.Hash] is an object one writes bytes to and asks for the digest
    of everything written so far.  Its state is the data written; [hfinal]
    is the function the object computes on it. *)

Record Hash := MkHash {
  hsize  : nat;               (* Size() *)
  hblock : nat;               (* BlockSize() *)
  hfinal : bytes -> bytes;    (* the digest of the data written *)
  hdata  : bytes              (* the data written so far *)
}.

Definition hash_write (h : Hash) (p : bytes) : Hash :=
  MkHash (hsize h) (hblock h) (hfinal h) (hdata h ++ p).

Definition hash_digest (h : Hash) : bytes := hfinal h (hdata h).

(** [md5.New]. *)
Definition md5_New : Hash := MkHash MD5.Size MD5.BlockSize MD5.sum [].

(** [sha256.New]. *)
Definition sha256_New : Hash := MkHash SHA256.Size SHA256.BlockSize SHA256.sum [].

(** A KeyedHash is a hash algorithm which depends on a secret key:
    [type KeyedHash func(key []byte) hash.Hash].  The function receives the
    bytes of the key slice at the time of the call. *)
Definition KeyedHash := bytes -> Hash.

(** [hmac.New(alg, key)], RFC 2104: a key longer than the block size is
    hashed first, then padded with zeros to the block size. *)
Definition hmac_New (alg : Hash) (key : bytes) : Hash :=
  let bs := hblock alg in
  let key' := if (bs <? length key)%nat then hfinal alg key else key in
  let padded := key' ++ replicate (bs - length key') 0 in
  let ipad := List.map (fun b => Z.lxor b 0x36) padded in
  let opad := List.map (fun b => Z.lxor b 0x5c) padded in
  MkHash (hsize alg) bs
         (fun data => hfinal alg (opad ++ hfinal alg (ipad ++ data))) [].

(** HMAC returns a keyed hash implementation using the HMAC of the given
    hash algorithm. *)
Definition HMAC (alg : Hash) : KeyedHash := fun key => hmac_New alg key.


(** ** IEEE binary64 ([float64]) *)

Module F64.

Definition float64 := spec_float.

Definition prec : Z := 53.
Definition emax : Z := 1024.

(** The value with the given bit pattern ([math.Float64frombits]). *)
Definition of_bits (b : Z) : float64 :=
  let s := Z.testbit b 63 in
  let e := Z.land (Z.shiftr b 52) 0x7ff in
  let f := Z.land b 0xfffffffffffff in
  if e =? 0 then
    match f with Zpos p => S754_finite s p (-1074) | _ => S754_zero s end
  else if e =? 0x7ff then
    (if f =? 0 then S754_infinity s else S754_nan)
  else S754_finite s (Z.to_pos (f + 0x10000000000000)) (e - 1075).

Definition zero : float64 := S754_zero false.
Definition half : float64 := of_bits 0x3fe0000000000000.
Definition one  : float64 := of_bits 0x3ff0000000000000.
Definition two  : float64 := of_bits 0x4000000000000000.
Definition inf  : float64 := S754_infinity false.
Definition nan  : float64 := S754_nan.

Definition add : float64 -> float64 -> float64 := SFadd prec emax.
Definition sub : float64 -> float64 -> float64 := SFsub prec emax.
Definition mul : float64 -> float64 -> float64 := SFmul prec emax.
Definition div : float64 -> float64 -> float64 := SFdiv prec emax.
Definition sqrt : float64 -> float64 := SFsqrt prec emax.
Definition neg : float64 -> float64 := SFopp.
Definition abs : float64 -> float64 := SFabs.
Definition ltb : float64 -> float64 -> bool := SFltb.
Definition eqb : float64 -> float64 -> bool := SFeqb.

Definition is_nan (x : float64) : bool :=
  match x with S754_nan => true | _ => false end.
Definition is_inf (x : float64) : bool :=
  match x with S754_infinity _ => true | _ => false end.
Definition signbit (x : float64) : bool :=
  match x with
  | S754_zero s | S754_infinity s | S754_finite s _ _ => s
  | S754_nan => false
  end.

(** A number that is neither zero, nor infinite, nor NaN. *)
Definition finite_nonzero (x : float64) : Prop :=
  match x with S754_finite _ _ _ => True | _ => False end.

(** Conversion of an integer, rounding to nearest even: [float64(n)] for
    [n] a [uint64], an [int64] or an [int]. *)
Definition of_Z (n : Z) : float64 := binary_normalize prec emax n 0 false.
Definition of_uint64 (n : Z) : float64 := of_Z n.

(** The integer part, towards zero, of a number that has one. *)
Definition trunc (x : float64) : option Z :=
  match x with
  | S754_zero _ => Some 0
  | S754_finite s m e =>
      let a := if 0 <=? e then Z.shiftl (Zpos m) e else Z.shiftr (Zpos m) (- e) in
      Some (if s then - a else a)
  | _ => None
  end.

(** [math.Ceil]: the least integer value greater than or equal to [x];
    zeros, infinities and NaN are returned as they are, and a result that
    rounds a negative number to zero is the negative zero. *)
Definition Ceil (x : float64) : float64 :=
  match x with
  | S754_finite s m e =>
      if 0 <=? e then x
      else
        let q := Z.shiftr (Zpos m) (- e) in
        let exact := Z.shiftl q (- e) =? Zpos m in
        if s then binary_normalize prec emax (- q) 0 true
        else binary_normalize prec emax (if exact then q else q + 1) 0 false
  | _ => x
  end.

(** [math.Frexp]: [x = frac * 2^exp] with [1/2 <= |frac| < 1]. *)
Definition Frexp (x : float64) : float64 * Z :=
  match x with
  | S754_finite _ _ _ => SFfrexp prec emax x
  | _ => (x, 0)
  end.

(** [math.Ldexp]: [frac * 2^exp]. *)
Definition Ldexp (frac : float64) (exp : Z) : float64 := SFldexp prec emax frac exp.

(** [math.Modf] on a non-negative number: integer and fractional part. *)
Definition Modf (x : float64) : float64 * float64 :=
  match trunc x with
  | Some n => let i := of_Z n in (i, sub x i)
  | None => (x, nan)
  end.

End F64.
Export F64.

(** ** What the package takes from Go

    [math.Log] and [math.Pow] are library functions whose last bit depends on
    the architecture; the value of [uint64(f)] for an [f] whose integer part
    is not a [uint64] is implementation-dependent (Go specification,
    Conversions), and so is the capacity [append] gives a slice that it
    reallocates.  The development is parametric in the four. *)

Class Platform := {
  Log : float64 -> float64;
  Pow : float64 -> float64 -> float64;
  uint64_out_of_range : float64 -> Z;
  growslice : nat -> nat -> nat
}.

Section Conversions.
Context `{Platform}.

(** [uint64(f)]: the fraction is discarded; [f] out of range gives what the
    platform gives, as a [uint64]. *)
Definition to_uint64 (f : float64) : Z :=
  match trunc f with
  | Some n => if (0 <=? n) && (n <? 2 ^ 64) then n else wrap64 (uint64_out_of_range f)
  | None => wrap64 (uint64_out_of_range f)
  end.

End Conversions.

(** *** The portable implementations of [math.Log], [math.Exp], [math.Pow]
    ([log.go], [exp.go], [pow.go] of Go's [math] package), with every
    operation rounded to binary64 and none fused. *)

Module Portable.

Declare Scope f64_scope.
Delimit Scope f64_scope with f64.
Local Infix "+" := F64.add : f64_scope.
Local Infix "-" := F64.sub : f64_scope.
Local Infix "*" := F64.mul : f64_scope.
Local Infix "/" := F64.div : f64_scope.
Local Infix "<" := F64.ltb : f64_scope.
Local Infix "==" := F64.eqb (at level 70) : f64_scope.
Local Open Scope f64_scope.

Definition Ln2Hi := of_bits 0x3fe62e42fee00000. (* 6.93147180369123816490e-01 *)
Definition Ln2Lo := of_bits 0x3dea39ef35793c76. (* 1.90821492927058770002e-10 *)
Definition Sqrt2_2 := of_bits 0x3fe6a09e667f3bcd. (* Sqrt2/2 *)

Definition log (x : float64) : float64 :=
  let L1 := of_bits 0x3FE5555555555593 in
  let L2 := of_bits 0x3FD999999997FA04 in
  let L3 := of_bits 0x3FD2492494229359 in
  let L4 := of_bits 0x3FCC71C51D8E78AF in
  let L5 := of_bits 0x3FC7466496CB03DE in
  let L6 := of_bits 0x3FC39A09D078C69F in
  let L7 := of_bits 0x3FC2F112DF3E5244 in
  (* special cases *)
  if is_nan x || (is_inf x && negb (signbit x)) then x
  else if x < zero then nan
  else if x == zero then S754_infinity true
  else
    (* reduce *)
    let '(f1, ki) := Frexp x in
    let '(f1, ki) := if f1 < Sqrt2_2 then (f1 * two, (ki - 1)%Z) else (f1, ki) in
    let f := f1 - one in
    let k := of_Z ki in
    (* compute *)
    let s := f / (two + f) in
    let s2 := s * s in
    let s4 := s2 * s2 in
    let t1 := s2 * (L1 + s4 * (L3 + s4 * (L5 + s4 * L7))) in
    let t2 := s4 * (L2 + s4 * (L4 + s4 * L6)) in
    let R := t1 + t2 in
    let hfsq := half * f * f in
    k * Ln2Hi - ((hfsq - (s * (hfsq + R) + k * Ln2Lo)) - f).

Definition expmulti (hi lo : float64) (k : Z) : float64 :=
  let P1 := of_bits 0x3FC5555555555555 in
  let P2 := of_bits 0xBF66C16C16BEBD93 in
  let P3 := of_bits 0x3F11566AAF25DE2C in
  let P4 := of_bits 0xBEBBBD41C5D26BF1 in
  let P5 := of_bits 0x3E66376972BEA4D0 in
  let r := hi - lo in
  let t := r * r in
  let c := r - t * (P1 + t * (P2 + t * (P3 + t * (P4 + t * P5)))) in
  let y := one - ((lo - (r * c) / (two - c)) - hi) in
  Ldexp y k.

Definition exp (x : float64) : float64 :=
  let Log2e := of_bits 0x3ff71547652b82fe in
  let Overflow := of_bits 0x40862e42fefa39ef in
  let Underflow := of_bits 0xc0874910d52d3051 in
  let NearZero := of_bits 0x3e30000000000000 in
  if is_nan x || (is_inf x && negb (signbit x)) then x
  else if is_inf x then zero
  else if Overflow < x then inf
  else if x < Underflow then zero
  else if (neg NearZero < x) && (x < NearZero) then one + x
  else
    (* reduce; computed as r = hi - lo for extra precision. *)
    let k :=
      if x < zero then default 0%Z (trunc (Log2e * x - half))
      else if zero < x then default 0%Z (trunc (Log2e * x + half))
      else 0%Z in
    let hi := x - of_Z k * Ln2Hi in
    let lo := of_Z k * Ln2Lo in
    expmulti hi lo k.

Definition isOddInt (x : float64) : bool :=
  if abs x < of_bits 0x4340000000000000 (* 1 << 53 *) then
    let '(xi, xf) := Modf (abs x) in
    (xf == zero) && Z.odd (default 0%Z (trunc xi))
  else false.

(** The loop [for i := int64(yi); i != 0; i >>= 1] of [pow]. *)
Fixpoint pow_loop (fuel : nat) (i : Z) (a1 : float64) (ae : Z)
         (x1 : float64) (xe : Z) : float64 * Z :=
  match fuel with
  | O => (a1, ae)
  | S fuel' =>
      if (i =? 0)%Z then (a1, ae)
      else if ((xe <? - 2 ^ 12) || (2 ^ 12 <? xe))%Z then
        (* catastrophic overflow *)
        (a1, (ae + xe)%Z)
      else
        let '(a1, ae) := if Z.odd i then (a1 * x1, (ae + xe)%Z) else (a1, ae) in
        let x1 := x1 * x1 in
        let xe := Z.shiftl xe 1 in
        let '(x1, xe) := if x1 < half then (x1 + x1, (xe - 1)%Z) else (x1, xe) in
        pow_loop fuel' (Z.shiftr i 1) a1 ae x1 xe
  end.

(** [Pow(x, y)] for [x] a zero. *)
Definition pow_zero (x y : float64) : float64 :=
  if y < zero then
    (if signbit x && isOddInt y then S754_infinity true else inf)
  else
    (if signbit x && isOddInt y then x else zero).

Definition pow (x y : float64) : float64 :=
  if (y == zero) || (x == one) then one
  else if y == one then x
  else if is_nan x || is_nan y then nan
  else if x == zero then pow_zero x y
  else if is_inf y then
    (if x == neg one then one
     else if Bool.eqb (abs x < one) (negb (signbit y)) then zero
     else inf)
  else if is_inf x then
    (if signbit x then pow_zero (S754_zero true) (neg y)
     else if y < zero then zero else inf)
  else if y == half then sqrt x
  else if y == neg half then one / sqrt x
  else
    let '(yi, yf) := Modf (abs y) in
    if negb (yf == zero) && (x < zero) then nan
    else if negb (yi < of_bits 0x43e0000000000000) (* yi >= 1 << 63 *) then
      (if x == neg one then one
       else if Bool.eqb (abs x < one) (zero < y) then zero
       else inf)
    else
      (* ans = a1 * 2**ae; ans *= x**yf *)
      let '(a1, yi) :=
        if negb (yf == zero) then
          let '(yf, yi) := if half < yf then (yf - one, yi + one) else (yf, yi) in
          (exp (yf * log x), yi)
        else (one, yi) in
      (* ans *= x**yi *)
      let '(x1, xe) := Frexp x in
      let '(a1, ae) := pow_loop 64 (default 0%Z (trunc yi)) a1 0 x1 xe in
      let '(a1, ae) := if y < zero then (one / a1, (- ae)%Z) else (a1, ae) in
      Ldexp a1 ae.

(** Out of range, this instance converts through [int64] where that is
    defined (negative numbers wrap modulo [2^64]) and gives [2^63]
    otherwise. *)
Definition oor (f : float64) : Z :=
  match trunc f with
  | Some n => if ((- 2 ^ 63 <=? n) && (n <? 0))%Z then (n + 2 ^ 64)%Z else (2 ^ 63)%Z
  | None => (2 ^ 63)%Z
  end.

(** A reallocated slice gets the capacity it needs, rounded up to a
    multiple of eight. *)
Definition grow (old needed : nat) : nat := ((needed + 7) / 8 * 8)%nat.

End Portable.

Definition portable : Platform :=
  {| Log := Portable.log; Pow := Portable.pow;
     uint64_out_of_range := Portable.oor; growslice := Portable.grow |}.

(** ** Memory, slices and the monad of the package's functions *)

Abbreviation loc := positive.

(** A slice: a window of [len] bytes, extensible to [cap], starting at
    [off] in the array at [base]. *)
Record slice := Slice { base : loc; off : nat; len : nat; cap : nat }.

(** A KeyedHashTree is a tree of keyed hashes, used to derive keys. *)
Record KeyedHashTree := MkTree {
  root      : slice;
  alg       : KeyedHash;
  blockSize : Z;
  maxSize   : Z;
  depth     : Z;
  factor    : float64
}.

(** What is observable of the hashing: calls of the keyed hash, and the
    [Write] and [Sum] of the objects it returns. *)
Inductive event :=
| EvKeyed (key : bytes)
| EvWrite (p : bytes)
| EvSum (digest : bytes).

Record world := World {
  arrays : gmap loc bytes;           (* backing arrays of the byte slices *)
  trees  : gmap loc KeyedHashTree;   (* the objects [*KeyedHashTree] points to *)
  trace  : list event
}.

Inductive panic :=
| Panic (msg : string)          (* [panic(msg)] *)
| RuntimeError (msg : string).  (* a run-time panic *)

Definition OffsetOutOfRange : panic := Panic "offset greater than maximum size".
Definition DivideByZero : panic := RuntimeError "integer divide by zero".

Inductive outcome (A : Type) :=
| Ok (a : A)
| Panicked (p : panic).
Arguments Ok {A} a.
Arguments Panicked {A} p.

(** A computation: from a world to an outcome and the world it leaves. *)
Definition M (A : Type) : Type := world -> outcome A * world.

Definition ret {A} (a : A) : M A := fun w => (Ok a, w).

Definition bind {A B} (m : M A) (k : A -> M B) : M B :=
  fun w => match m w with
           | (Ok a, w') => k a w'
           | (Panicked p, w') => (Panicked p, w')
           end.

Definition throw {A} (p : panic) : M A := fun w => (Panicked p, w).

Notation "'let*' x ':=' m 'in' k" := (bind m (fun x => k))
  (at level 10, x name, m at level 100, k at level 200).
Notation "m ';;;' k" := (bind m (fun _ => k))
  (at level 100, k at level 200, right associativity).

(** The three ways a world changes. *)
Definition add_event (e : event) (w : world) : world :=
  World (arrays w) (trees w) (trace w ++ [e]).

Definition upd_array (f : bytes -> bytes) (l : positive) (w : world) : world :=
  World (alter f l (arrays w)) (trees w) (trace w).

Definition add_array (l : positive) (a : bytes) (w : world) : world :=
  World (<[l := a]> (arrays w)) (trees w) (trace w).

Definition emit (e : event) : M unit := fun w => (Ok tt, add_event e w).

(** *** Byte arrays *)

Definition read_array (w : world) (l : loc) : bytes := default [] (arrays w !! l).

(** The bytes a slice shows. *)
Definition view (w : world) (s : slice) : bytes :=
  take (len s) (drop (off s) (read_array w (base s))).

Definition load (s : slice) : M bytes := fun w => (Ok (view w s), w).

(** Overwrite the array at [l] with [p] from index [i] on. *)
Definition splice (i : nat) (p : bytes) (a : bytes) : bytes :=
  take i a ++ p ++ drop (i + length p) a.

Definition store_at (l : loc) (i : nat) (p : bytes) : M unit :=
  fun w => (Ok tt, upd_array (splice i p) l w).

Definition alloc_array (a : bytes) : M loc :=
  fun w => let l := fresh (dom (arrays w)) in (Ok l, add_array l a w).

(** [make([]byte, n)]. *)
Definition make (n : nat) : M slice :=
  let* l := alloc_array (replicate n 0) in ret (Slice l 0 n n).

(** [[]byte(s)]. *)
Definition bytes_lit (p : bytes) : M slice :=
  let* l := alloc_array p in ret (Slice l 0 (length p) (length p)).

(** [copy(dst, src)]. *)
Definition copy (dst src : slice) : M nat :=
  let* p := load src in
  let n := Nat.min (len dst) (len src) in
  store_at (base dst) (off dst) (take n p);;;
  ret n.

(** [b[i:]] and [b[:j]]. *)
Definition slice_from (b : slice) (i : nat) : M slice :=
  if (len b <? i)%nat then throw (RuntimeError "slice bounds out of range")
  else ret (Slice (base b) (off b + i) (len b - i) (cap b - i)).

Definition slice_to (b : slice) (j : nat) : M slice :=
  if (cap b <? j)%nat then throw (RuntimeError "slice bounds out of range")
  else ret (Slice (base b) (off b) j (cap b)).

(** [binary.LittleEndian.PutUint64(b, v)]. *)
Definition PutUint64 (b : slice) (v : Z) : M unit :=
  if (len b <? 8)%nat then throw (RuntimeError "index out of range")
  else store_at (base b) (off b) (le_bytes 8 v).

(** [x / y] on [uint64]. *)
Definition udiv (x y : Z) : M Z :=
  if y =? 0 then throw DivideByZero else ret (x / y).

(** *** Tree objects *)

Definition deref (t : loc) : M KeyedHashTree :=
  fun w => match trees w !! t with
           | Some tr => (Ok tr, w)
           | None => (Panicked (RuntimeError "invalid memory address or nil pointer dereference"), w)
           end.

Definition alloc_tree (tr : KeyedHashTree) : M loc :=
  fun w => let l := fresh (dom (trees w)) in
           (Ok l, World (arrays w) (<[l := tr]> (trees w)) (trace w)).

Section Package.
Context `{Platform}.

(** [append(b, p...)]: in place when the capacity allows, in a new array
    otherwise. *)
Definition append (b : slice) (p : bytes) : M slice :=
  let n := (len b + length p)%nat in
  if (n <=? cap b)%nat then
    store_at (base b) (off b + len b) p;;;
    ret (Slice (base b) (off b) n (cap b))
  else
    let* old := load b in
    let c := Nat.max n (growslice (cap b) n) in
    let* l := alloc_array (old ++ p ++ replicate (c - n) 0) in
    ret (Slice l 0 n c).

(** [a(k)] for a keyed hash [a], [h.Write(p)] and [h.Sum(b)]. *)
Definition keyed (a : KeyedHash) (k : slice) : M Hash :=
  let* key := load k in
  emit (EvKeyed key);;;
  ret (a key).

Definition Write (h : Hash) (p : slice) : M Hash :=
  let* d := load p in
  emit (EvWrite d);;;
  ret (hash_write h d).

Definition Sum (h : Hash) (b : slice) : M slice :=
  let d := hash_digest h in
  emit (EvSum d);;;
  append b d.

(** ** The package *)

(** New returns a KeyedHashTree with the given root key, keyed hash
    algorithm, block size, maximum size, and branching factor. *)
Definition New (key : slice) (alg : KeyedHash) (blockSize maxSize : Z)
           (factor : float64) : M loc :=
  alloc_tree
    {| root := key;
       alg := alg;
       blockSize := blockSize;
       maxSize := maxSize;
       factor := factor;
       depth :=
         to_uint64
           (Ceil
              (F64.div (Log (F64.div (of_uint64 maxSize) (of_uint64 blockSize)))
                       (Log factor))) |}.

(** The body of the loop of [Key], at counter [i] with key [k]; it gives the
    key of the next iteration. *)
Definition Key_body (t : loc) (offset : Z) (buf k : slice) (i : Z) : M slice :=
  let* tr := deref t in
  let level := wrap64 (depth tr - i) in
  let blockSize :=
    wrap64 (to_uint64 (Pow (factor tr) (of_uint64 (wrap64 (level - 1))))
            * blockSize tr) in
  let* y := udiv offset blockSize in
  PutUint64 buf i;;;
  let* buf8 := slice_from buf 8 in
  PutUint64 buf8 y;;;
  let* h := keyed (alg tr) k in
  let* h := Write h buf in
  let* k0 := slice_to k 0 in
  Sum h k0.

(** [for i := uint64(0); i < t.depth; i++ { ... }], from counter [i] on:
    [n] is the number of iterations left, [t.depth - i]. *)
Fixpoint Key_loop (n : nat) (t : loc) (offset : Z) (buf k : slice) (i : Z)
  : M slice :=
  match n with
  | O => ret k
  | S n' =>
      let* k := Key_body t offset buf k i in
      Key_loop n' t offset buf k (wrap64 (i + 1))
  end.

(** Key returns the derived key at the given offset. *)
Definition Key (t : loc) (offset : Z) : M slice :=
  let* tr := deref t in
  if maxSize tr <? offset then throw OffsetOutOfRange
  else
    let* buf := make 16 in
    let* k := make (len (root tr)) in
    copy k (root tr);;;
    Key_loop (Z.to_nat (depth tr)) t offset buf k 0.

End Package.

(** * Definitions used by the properties *)

Definition empty_world : world := World ∅ ∅ [].

(** The depth [New] stores. *)
Definition depth_of `{Platform} (blockSize maxSize : Z) (factor : float64) : Z :=
  to_uint64
    (Ceil (F64.div (Log (F64.div (of_uint64 maxSize) (of_uint64 blockSize)))
                   (Log factor))).

(** ** The derivation as a function on byte strings *)

(** The 16-byte index buffer of a step: the step counter, then the node
    index, both little-endian. *)
Definition index_buffer (i y : Z) : bytes := le_bytes 8 i ++ le_bytes 8 y.

(** The key of the child: the digest of a fresh keyed hash, keyed with the
    parent's key, fed the index buffer. *)
Definition derive (a : KeyedHash) (k : bytes) (i y : Z) : bytes :=
  hash_digest (hash_write (a k) (index_buffer i y)).

Section Walk.
Context `{Platform}.

(** The block size [Key] computes for a level:
    [uint64(math.Pow(t.factor, float64(level-1))) * t.blockSize]. *)
Definition level_blockSize (tr : KeyedHashTree) (level : Z) : Z :=
  wrap64 (to_uint64 (Pow (factor tr) (of_uint64 (level - 1))) * blockSize tr).

(** [walk tr offset n i k]: the [n] steps from counter [i] and key [k] on;
    [None] when a level's block size is zero. *)
Fixpoint walk (tr : KeyedHashTree) (offset : Z) (n : nat) (i : Z) (k : bytes)
  : option bytes :=
  match n with
  | O => Some k
  | S n' =>
      let d := level_blockSize tr (depth tr - i) in
      if d =? 0 then None
      else walk tr offset n' (i + 1) (derive (alg tr) k i (offset / d))
  end.

(** The hashing events of the same steps. *)
Fixpoint walk_trace (tr : KeyedHashTree) (offset : Z) (n : nat) (i : Z) (k : bytes)
  : list event :=
  match n with
  | O => []
  | S n' =>
      let d := level_blockSize tr (depth tr - i) in
      if d =? 0 then []
      else
        let k' := derive (alg tr) k i (offset / d) in
        EvKeyed k :: EvWrite (index_buffer i (offset / d)) :: EvSum k'
          :: walk_trace tr offset n' (i + 1) k'
  end.

(** The key of an offset, from the bytes of the root key. *)
Definition key_of (tr : KeyedHashTree) (rootKey : bytes) (offset : Z) : option bytes :=
  walk tr offset (Z.to_nat (depth tr)) 0 rootKey.

End Walk.

Section Reference.
Context `{Platform}.

(** The block size of a level before it is reduced modulo [2^64]. *)
Definition trunc_blockSize (tr : KeyedHashTree) (level : Z) : Z :=
  to_uint64 (Pow (factor tr) (of_uint64 (level - 1))) * blockSize tr.

(** The reference walk with the power truncated to an integer, as [Key]
    truncates it. *)
Fixpoint ref_walk (tr : KeyedHashTree) (offset : Z) (n : nat) (i : Z) (k : bytes)
  : bytes :=
  match n with
  | O => k
  | S n' =>
      let level := depth tr - i in
      let levelBlockSize := trunc_blockSize tr level in
      let y := offset / levelBlockSize in
      ref_walk tr offset n' (i + 1) (derive (alg tr) k i y)
  end.

(** A tree whose depth is the one [New] computes from its other fields. *)
Definition built_by_New (tr : KeyedHashTree) : Prop :=
  depth tr = depth_of (blockSize tr) (maxSize tr) (factor tr).

(** What a call of [Key] comes to, from the tree and the bytes of its root
    key. *)
Definition Key_result (tr : KeyedHashTree) (rootKey : bytes) (offset : Z)
  : outcome bytes :=
  if maxSize tr <? offset then Panicked OffsetOutOfRange
  else match key_of tr rootKey offset with
       | Some k => Ok k
       | None => Panicked DivideByZero
       end.

(** A client: make the root key, build the tree, derive the key of an
    offset and read it. *)
Definition client (rootKey : bytes) (a : KeyedHash) (blockSize maxSize : Z)
           (factor : float64) (offset : Z) : M bytes :=
  let* key := bytes_lit rootKey in
  let* t := New key a blockSize maxSize factor in
  let* k := Key t offset in
  load k.

End Reference.

(** ** The walk of the specification, in exact arithmetic

    The specification's [levelBlockSize := blockSize * factor^(level - 1)]
    and [y := floor(offset / levelBlockSize)], with [factor] a real number:
    here the rational number that the binary64 [factor] is. *)

(** The value of a binary64 number, as a rational. *)
Definition real_of (x : float64) : Q :=
  match x with
  | S754_finite s m e =>
      Qmult (inject_Z (if s then Zneg m else Zpos m)) (Qpower (inject_Z 2) e)
  | _ => inject_Z 0
  end.

Definition spec_levelBlockSize (tr : KeyedHashTree) (level : Z) : Q :=
  Qmult (inject_Z (blockSize tr)) (Qpower (real_of (factor tr)) (level - 1)).

Definition spec_node_index (tr : KeyedHashTree) (offset level : Z) : Z :=
  Qfloor (Qdiv (inject_Z offset) (spec_levelBlockSize tr level)).

Fixpoint spec_walk (tr : KeyedHashTree) (offset : Z) (n : nat) (i : Z) (k : bytes)
  : bytes :=
  match n with
  | O => k
  | S n' =>
      let level := depth tr - i in
      let y := spec_node_index tr offset level in
      spec_walk tr offset n' (i + 1) (derive (alg tr) k i y)
  end.

Definition spec_key (tr : KeyedHashTree) (rootKey : bytes) (offset : Z) : bytes :=
  spec_walk tr offset (Z.to_nat (depth tr)) 0 rootKey.

(** ** Worlds and slices *)

(** A slice that lies within an allocated array. *)
Definition slice_ok (w : world) (s : slice) : Prop :=
  exists a, arrays w !! base s = Some a /\
            (off s + cap s <= length a)%nat /\ (len s <= cap s)%nat.

(** [w'] keeps the arrays at the locations in [D] and all tree objects. *)
Definition preserves (D : gset loc) (w w' : world) : Prop :=
  (forall l, l ∈ D -> arrays w' !! l = arrays w !! l) /\
  trees w' = trees w.

(** The invariant of the loop: the scratch buffer and the working key live
    in arrays allocated by the call (outside [D], the arrays that existed
    before), in two different arrays, and the working key shows [kb]. *)
Definition key_inv (D : gset loc) (w : world) (buf k : slice) (kb : bytes) : Prop :=
  D ⊆ dom (arrays w) /\ (base buf ∉ D) /\ (base k ∉ D) /\ base buf <> base k /\
  slice_ok w buf /\ len buf = 16%nat /\ slice_ok w k /\ view w k = kb.

(** [t] points to a tree object whose fields are [uint64]s and whose root
    key lies in an allocated array. *)
Definition tree_at (w : world) (t : loc) (tr : KeyedHashTree) : Prop :=
  trees w !! t = Some tr /\ slice_ok w (root tr) /\
  0 <= blockSize tr < 2 ^ 64 /\ 0 <= maxSize tr < 2 ^ 64 /\ 0 <= depth tr < 2 ^ 64.

(** A computation that leaves the tree objects as they are, whatever its
    outcome. *)
Definition keeps_trees {A} (m : M A) : Prop :=
  forall w, trees (snd (m w)) = trees w.

Definition is_zero (x : float64) : Prop :=
  match x with S754_zero _ => True | _ => False end.

Definition nonzero_number (x : float64) : Prop :=
  match x with S754_finite _ _ _ | S754_infinity _ => True | _ => False end.

(** A keyed hash whose digests all have [n] bytes. *)
Definition fixed_size (a : KeyedHash) (n : nat) : Prop :=
  forall key data, length (hash_digest (hash_write (a key) data)) = n.

(** Two runs that end alike: in keys with the same bytes, or in the same
    panic. *)
Definition same_outcome (x y : outcome slice * world) : Prop :=
  match fst x, fst y with
  | Ok s1, Ok s2 => view (snd x) s1 = view (snd y) s2
  | Panicked p1, Panicked p2 => p1 = p2
  | _, _ => False
  end.

(** ** The test and other concrete trees *)

Definition yay : bytes := bytes_of_string "yay".

(** The expected keys of [TestKey]. *)
Definition TestKey_keys : list bytes :=
  [ [0x3a; 0xbe; 0x2f; 0xa3; 0xa0; 0xac; 0x9b; 0xa2; 0xa7; 0x4d; 0x17; 0xd4; 0x10; 0xb1; 0x30; 0x6];
    [0x3a; 0xbe; 0x2f; 0xa3; 0xa0; 0xac; 0x9b; 0xa2; 0xa7; 0x4d; 0x17; 0xd4; 0x10; 0xb1; 0x30; 0x6];
    [0x0; 0xe; 0x19; 0x5a; 0x57; 0x67; 0xc8; 0x69; 0xdb; 0xb7; 0x60; 0xc7; 0xae; 0xf7; 0x45; 0xe5];
    [0x0; 0xe; 0x19; 0x5a; 0x57; 0x67; 0xc8; 0x69; 0xdb; 0xb7; 0x60; 0xc7; 0xae; 0xf7; 0x45; 0xe5];
    [0x47; 0xd6; 0x23; 0x46; 0x88; 0x52; 0x11; 0xe5; 0xb1; 0xba; 0x78; 0x3c; 0x9d; 0x49; 0x81; 0x9d];
    [0x47; 0xd6; 0x23; 0x46; 0x88; 0x52; 0x11; 0xe5; 0xb1; 0xba; 0x78; 0x3c; 0x9d; 0x49; 0x81; 0x9d];
    [0x36; 0x65; 0xbc; 0xec; 0x2f; 0x34; 0xb; 0x96; 0x6f; 0xb2; 0x70; 0xeb; 0x4b; 0xed; 0x22; 0x55];
    [0x36; 0x65; 0xbc; 0xec; 0x2f; 0x34; 0xb; 0x96; 0x6f; 0xb2; 0x70; 0xeb; 0x4b; 0xed; 0x22; 0x55];
    [0x81; 0x15; 0xf5; 0x6e; 0x4; 0xd4; 0xe8; 0x4a; 0x9b; 0x8e; 0x45; 0xb8; 0x2f; 0xad; 0xd1; 0x55];
    [0x81; 0x15; 0xf5; 0x6e; 0x4; 0xd4; 0xe8; 0x4a; 0x9b; 0x8e; 0x45; 0xb8; 0x2f; 0xad; 0xd1; 0x55];
    [0xa6; 0x7; 0x3d; 0x82; 0x8e; 0x64; 0x27; 0x5e; 0x2a; 0x1e; 0x91; 0xcd; 0xef; 0x2f; 0xe9; 0x81];
    [0xa6; 0x7; 0x3d; 0x82; 0x8e; 0x64; 0x27; 0x5e; 0x2a; 0x1e; 0x91; 0xcd; 0xef; 0x2f; 0xe9; 0x81];
    [0x4d; 0xbd; 0x5a; 0x62; 0x2d; 0x23; 0xd5; 0x27; 0x92; 0x8e; 0x69; 0x1d; 0x3d; 0xfe; 0xb1; 0x20];
    [0x4d; 0xbd; 0x5a; 0x62; 0x2d; 0x23; 0xd5; 0x27; 0x92; 0x8e; 0x69; 0x1d; 0x3d; 0xfe; 0xb1; 0x20];
    [0xe0; 0x9; 0x48; 0xcc; 0x3a; 0x86; 0xcc; 0x31; 0x90; 0x73; 0xe1; 0x3f; 0x63; 0x75; 0x3d; 0xdf];
    [0xe0; 0x9; 0x48; 0xcc; 0x3a; 0x86; 0xcc; 0x31; 0x90; 0x73; 0xe1; 0x3f; 0x63; 0x75; 0x3d; 0xdf] ].

(** Trees over the root key "yay" and HMAC-MD5, as the portable platform
    builds them, each alone in a world with its root key. *)
Definition tree_of (blockSize maxSize : Z) (factor : float64) : KeyedHashTree :=
  MkTree (Slice 1 0 3 3) (HMAC md5_New) blockSize maxSize
         (depth_of (H:=portable) blockSize maxSize factor) factor.

Definition world_of (tr : KeyedHashTree) : world :=
  World {[ 1%positive := yay ]} {[ 1%positive := tr ]} [].

(** The tree of [TestKey]. *)
Definition test_tree : KeyedHashTree := tree_of 2 16 (of_uint64 8).

(** One and a half. *)
Definition f1_5 : float64 := of_bits 0x3ff8000000000000.

(** 916015.5093913297, a little over the cube root of [2^64 / 24]. *)
Definition f916015 : float64 := of_bits 0x412bf45f04cef0bc.

Definition max_uint64 : Z := 2 ^ 64 - 1.

(** ** The tests and the benchmark (package [kht_test]) *)

(** An argument of a call of [t.Error] or [t.Errorf]. *)
Inductive value :=
| VUint (n : Z)
| VBytes (b : bytes)
| VString (s : string)
| VRecovered (e : option panic).   (* what [recover()] returned; [None] is [nil] *)

(** A failure that a test reports. *)
Inductive report :=
| Error (args : list value)
| Errorf (format : string) (args : list value).

(** The state of a running test: what it has reported so far, and the
    heap. *)
Record testing := Testing { reports : list report; heap : world }.

(** A test: a computation on that state, which may panic. *)
Definition Test (A : Type) : Type := testing -> outcome A * testing.

#[global] Instance Test_ret : MRet Test := fun A a s => (Ok a, s).

#[global] Instance Test_bind : MBind Test := fun A B k m s =>
  match m s with
  | (Ok a, s') => k a s'
  | (Panicked p, s') => (Panicked p, s')
  end.

(** A computation of the package, run by a test. *)
Definition run {A} (m : M A) : Test A :=
  fun s => let (r, w') := m (heap s) in (r, Testing (reports s) w').

Definition t_Error (args : list value) : Test unit :=
  fun s => (Ok tt, Testing (reports s ++ [Error args]) (heap s)).

Definition t_Errorf (format : string) (args : list value) : Test unit :=
  fun s => (Ok tt, Testing (reports s ++ [Errorf format args]) (heap s)).

(** [defer func() { e := recover(); ... }()] before [body]: the deferred
    function [d] runs when [body] returns or panics; [recover] gives it the
    value of the panic, or [nil], and the panic stops there. *)
Definition defer_recover (d : option panic -> Test unit) (body : Test unit)
  : Test unit :=
  fun s => match body s with
           | (Ok _, s') => d None s'
           | (Panicked p, s') => d (Some p) s'
           end.

(** [e != msg] for an interface value [e] and a string [msg]: they are
    equal only when [e] holds that string. *)
Definition differs_from_string (e : option panic) (msg : string) : bool :=
  match e with
  | Some (Panic m) => negb (String.eqb m msg)
  | _ => true
  end.

(** [bytes.Equal(a, b)]. *)
Definition bytes_Equal (a b : slice) : M bool :=
  let* x := load a in
  let* y := load b in
  ret (bool_decide (x = y)).

(** [keys[i]]. *)
Definition index (keys : list slice) (i : Z) : M slice :=
  match keys !! Z.to_nat i with
  | Some s => ret s
  | None => throw (RuntimeError "index out of range")
  end.

(** A literal [[][]byte{{...}, ...}]: an array for each element. *)
Fixpoint literals (l : list bytes) : M (list slice) :=
  match l with
  | [] => ret []
  | p :: l' =>
      let* s := bytes_lit p in
      let* ss := literals l' in
      ret (s :: ss)
  end.

Section Tests.
Context `{Platform}.

(** The loop of [TestKey], from counter [i] on, with [m = n - i]
    iterations left. *)
Fixpoint TestKey_loop (m : nat) (keys : list slice) (tree : loc) (i : Z)
  : Test unit :=
  match m with
  | O => mret tt
  | S m' =>
      v ← run (Key tree i);
      want ← run (index keys i);
      same ← run (bytes_Equal v want);
      (if negb same then
         vb ← run (load v);
         wb ← run (load want);
         t_Errorf "Key %d was %#v, but expected %#v" [VUint i; VBytes vb; VBytes wb]
       else mret tt);;
      TestKey_loop m' keys tree (wrap64 (i + 1))
  end.

Definition TestKey : Test unit :=
  keys ← run (literals TestKey_keys);
  let n := 16 in
  key ← run (bytes_lit yay);
  tree ← run (New key (HMAC md5_New) 2 n (of_uint64 8));
  TestKey_loop (Z.to_nat n) keys tree 0.

Definition TestOffsetTooGreat : Test unit :=
  defer_recover
    (fun e =>
       if differs_from_string e "offset greater than maximum size"
       then t_Errorf "Panic was %v, which is weird" [VRecovered e]
       else mret tt)
    (key ← run (bytes_lit yay);
     tree ← run (New key (HMAC md5_New) 2 100 (of_uint64 8));
     _ ← run (Key tree 1000);
     t_Error [VString "No panic, but expected one"]).

(** The loop of [BenchmarkKey], with [m] iterations left. *)
Fixpoint BenchmarkKey_loop (m : nat) (tree : loc) : M unit :=
  match m with
  | O => ret tt
  | S m' => let* _ := Key tree 0 in BenchmarkKey_loop m' tree
  end.

(** [BenchmarkKey], for [b.N = N].  The calls [b.ReportAllocs()] and
    [b.ResetTimer()] set the benchmark's flags and clock, which are not
    part of the heap. *)
Definition BenchmarkKey (N : Z) : M unit :=
  let* key := make 32 in
  let* tree := New key (HMAC sha256_New) 1024 (2 ^ 32) (of_uint64 8) in
  BenchmarkKey_loop (Z.to_nat N) tree.

End Tests.

(** ** What the calls of [Key] leave in a world *)

(** The events of hashing rounds: for each round the key given to the
    keyed hash, the bytes written to the hash object and the digest taken
    from it. *)
Fixpoint rounds (l : list (bytes * bytes * bytes)) : list event :=
  match l with
  | [] => []
  | (k, b, d) :: l' => EvKeyed k :: EvWrite b :: EvSum d :: rounds l'
  end.

(** Rounds that start from the key [k0], write 16 bytes each, key each
    round with the digest of the round before, and end with [kf]. *)
Fixpoint chained (k0 : bytes) (l : list (bytes * bytes * bytes)) (kf : bytes) : Prop :=
  match l with
  | [] => kf = k0
  | (k, b, d) :: l' => k = k0 /\ length b = 16%nat /\ chained d l' kf
  end.

(** The number of byte arrays of a world: those that [make], [append] and
    the literals of the package and of its tests have allocated. *)
Definition n_arrays (w : world) : nat := size (dom (arrays w)).

(** Slices that show the byte strings [l], in order. *)
Definition show_all (w : world) (ss : list slice) (l : list bytes) : Prop :=
  Forall2 (fun s b => slice_ok w s /\ view w s = b) ss l.

(** ** More concrete worlds *)

(** A world with the root key "yay" and no tree. *)
Definition key_world : world := World {[ 1%positive := yay ]} ∅ [].

(** A world with one scratch buffer of 16 bytes. *)
Definition buffer_world : world := World {[ 1%positive := replicate 16 0 ]} ∅ [].

(** The tree of the test over another root key, alone in a world with that
    key. *)
Definition world_with (rootKey : bytes) : world :=
  World {[ 1%positive := rootKey ]}
        {[ 1%positive := MkTree (Slice 1 0 (length rootKey) (length rootKey))
                                (HMAC md5_New) 2 16
                                (depth_of (H:=portable) 2 16 (of_uint64 8))
                                (of_uint64 8) ]} [].

(** A root key longer than the 64-byte block of MD5. *)
Definition long_key : bytes := replicate 70 7.

(** * Properties *)

(** ** [New] *)

Section NewFacts.
Context `{Platform}.

Lemma New_spec key a bs ms f w :
  New key a bs ms f w =
    (Ok (fresh (dom (trees w))),
     World (arrays w)
           (<[fresh (dom (trees w)) := MkTree key a bs ms (depth_of bs ms f) f]> (trees w))
           (trace w)).
Proof. reflexivity. Qed.

Lemma fresh_tree_unused (w : world) : trees w !! fresh (dom (trees w)) = None.
Proof. apply not_elem_of_dom, is_fresh. Qed.

(** C7, as the code has it: [New] validates nothing.  Whatever the
    parameters, it returns a pointer to a new tree object that holds the
    parameters as given and the depth computed from them; no parameter makes
    it fail. *)
Theorem New_never_fails key a bs ms f w :
  exists t w',
    New key a bs ms f w = (Ok t, w') /\
    trees w !! t = None /\
    trees w' !! t = Some (MkTree key a bs ms (depth_of bs ms f) f) /\
    arrays w' = arrays w /\ trace w' = trace w.
Proof.
  rewrite New_spec. eexists _, _. split; [reflexivity|].
  split; [apply fresh_tree_unused|]. cbn.
  split; [apply lookup_insert_eq|]. done.
Qed.

End NewFacts.

(** C7, counterexample: with a branching factor of one, with a block size of
    zero, and with a maximum size below the block size, [New] returns a
    tree and raises nothing. *)
Lemma New_accepts_invalid_parameters :
  let key := Slice 1 0 3 3 in
  let ok (r : outcome loc * world) := exists t, fst r = Ok t in
  ok (New (H:=portable) key (HMAC md5_New) 2 16 one empty_world) /\
  ok (New (H:=portable) key (HMAC md5_New) 0 16 (of_Z 8) empty_world) /\
  ok (New (H:=portable) key (HMAC md5_New) 16 2 (of_Z 8) empty_world).
Proof. cbv zeta. repeat split; eexists; reflexivity. Qed.

(** ** Lists as arrays *)

Lemma le_bytes_length n v : length (le_bytes n v) = n.
Proof. revert v. induction n as [|n IH]; intros v; cbn; [done|]. by rewrite IH. Qed.

Arguments le_bytes : simpl never.

Lemma splice_length i (p a : bytes) :
  (i + length p <= length a)%nat -> length (splice i p a) = length a.
Proof.
  intros Hle. unfold splice.
  rewrite !length_app, length_take, length_drop. lia.
Qed.

Lemma splice_app (pre x post p : bytes) :
  length x = length p ->
  splice (length pre) p (pre ++ x ++ post) = pre ++ p ++ post.
Proof.
  intros Hlen. unfold splice.
  rewrite take_app_length. f_equal. f_equal.
  rewrite drop_app_add'; [|done].
  rewrite <- Hlen. by rewrite drop_app_length.
Qed.

Lemma array_window (a : bytes) (i n : nat) :
  (i + n <= length a)%nat ->
  exists pre x post,
    a = pre ++ x ++ post /\ length pre = i /\ length x = n.
Proof.
  intros Hle. exists (take i a), (take n (drop i a)), (drop n (drop i a)).
  rewrite !take_drop. split; [done|].
  rewrite !length_take, length_drop. lia.
Qed.

Lemma window_app (pre x post : bytes) :
  take (length x) (drop (length pre) (pre ++ x ++ post)) = x.
Proof. by rewrite drop_app_length, take_app_length. Qed.

(** ** Slices in a world *)

Lemma preserves_refl D w : preserves D w w.
Proof. by split. Qed.

Lemma preserves_trans D w1 w2 w3 :
  preserves D w1 w2 -> preserves D w2 w3 -> preserves D w1 w3.
Proof.
  intros [Ha1 Ht1] [Ha2 Ht2]. split; [|congruence].
  intros l Hl. rewrite Ha2, Ha1; done.
Qed.

Lemma slice_ok_dom w s : slice_ok w s -> base s ∈ dom (arrays w).
Proof. intros (a & Ha & _). apply elem_of_dom. eauto. Qed.

Lemma view_preserved D w w' s :
  preserves D w w' -> base s ∈ D -> view w' s = view w s.
Proof. intros [Ha _] Hs. unfold view, read_array. by rewrite Ha. Qed.

Lemma view_length w s : slice_ok w s -> length (view w s) = len s.
Proof.
  intros (a & Ha & Hcap & Hlen). unfold view, read_array. rewrite Ha. cbn.
  rewrite length_take, length_drop. lia.
Qed.

Lemma fresh_array_unused (w : world) : arrays w !! fresh (dom (arrays w)) = None.
Proof. apply not_elem_of_dom, is_fresh. Qed.

Lemma view_add_event e w s : view (add_event e w) s = view w s.
Proof. reflexivity. Qed.

Lemma slice_ok_add_event e w s : slice_ok (add_event e w) s <-> slice_ok w s.
Proof. reflexivity. Qed.

Lemma view_upd_other f l w s : base s <> l -> view (upd_array f l w) s = view w s.
Proof.
  intros Hne. unfold view, read_array, upd_array. cbn.
  by rewrite lookup_alter_ne.
Qed.

Lemma slice_ok_upd f l w s :
  (forall a, arrays w !! l = Some a -> length (f a) = length a) ->
  slice_ok w s -> slice_ok (upd_array f l w) s.
Proof.
  intros Hf (a & Ha & Hcap & Hlen). unfold slice_ok, upd_array. cbn.
  destruct (decide (base s = l)) as [Heq|Hne].
  - rewrite Heq in *. exists (f a). rewrite lookup_alter_eq, Ha. cbn.
    rewrite (Hf a Ha). done.
  - exists a. by rewrite lookup_alter_ne.
Qed.

Lemma view_add_other l a w s : base s <> l -> view (add_array l a w) s = view w s.
Proof.
  intros Hne. unfold view, read_array, add_array. cbn.
  by rewrite lookup_insert_ne.
Qed.

Lemma slice_ok_add l a w s :
  base s <> l -> slice_ok w s -> slice_ok (add_array l a w) s.
Proof.
  intros Hne (b & Hb & Hcap & Hlen). exists b. unfold add_array. cbn.
  by rewrite lookup_insert_ne.
Qed.

Lemma slice_ok_not_fresh w s : slice_ok w s -> base s <> fresh (dom (arrays w)).
Proof.
  intros Hok Heq. apply slice_ok_dom in Hok. rewrite Heq in Hok.
  by apply is_fresh in Hok.
Qed.

(** Writing [p] over the whole window of a slice, or over its first or
    second half. *)
Lemma view_store w l o (p : bytes) c a :
  arrays w !! l = Some a -> (o + length p <= length a)%nat ->
  view (upd_array (splice o p) l w) (Slice l o (length p) c) = p.
Proof.
  intros Ha Hle. unfold view, read_array, upd_array. cbn.
  rewrite lookup_alter_eq, Ha. cbn.
  destruct (array_window a o (length p) Hle) as (pre & x & post & -> & Hpre & Hx).
  rewrite <- Hpre, splice_app by done. apply window_app.
Qed.

Lemma view_store2 w l o (p1 p2 : bytes) a :
  arrays w !! l = Some a -> (o + (length p1 + length p2) <= length a)%nat ->
  view (upd_array (splice (o + length p1) p2) l (upd_array (splice o p1) l w))
       (Slice l o (length p1 + length p2) (length p1 + length p2)) = p1 ++ p2.
Proof.
  intros Ha Hle. unfold view, read_array, upd_array. cbn.
  rewrite !lookup_alter_eq, Ha. cbn.
  destruct (array_window a o (length p1 + length p2) Hle)
    as (pre & x & post & -> & Hpre & Hx).
  rewrite <- (take_drop (length p1) x) in *.
  rewrite length_app in Hx.
  set (x1 := take (length p1) x) in *. set (x2 := drop (length p1) x) in *.
  assert (length x1 = length p1) as H1.
  { unfold x1. rewrite length_take. assert (length x = length x1 + length x2)%nat.
    { unfold x1, x2. rewrite length_take, length_drop. lia. } lia. }
  rewrite <- !Hpre, <- (app_assoc x1 x2 post), splice_app by done.
  rewrite (app_assoc pre p1 (x2 ++ post)).
  replace (length pre + length p1)%nat with (length (pre ++ p1)) by (by rewrite length_app).
  rewrite splice_app by lia.
  rewrite <- (app_assoc pre p1), (app_assoc p1 p2 post), <- length_app.
  apply window_app.
Qed.

(** ** The loop of [Key] *)

Section KeyFacts.
Context `{Platform}.

Lemma append_empty_spec (D : gset loc) w l o c (d : bytes) :
  slice_ok w (Slice l o 0 c) -> l ∉ D -> D ⊆ dom (arrays w) ->
  exists k' w',
    append (Slice l o 0 c) d w = (Ok k', w') /\
    view w' k' = d /\ len k' = length d /\ slice_ok w' k' /\ (base k' ∉ D) /\
    (base k' = l \/ base k' ∉ dom (arrays w)) /\
    preserves D w w' /\ trace w' = trace w /\
    (forall s, slice_ok w s -> base s <> l ->
               slice_ok w' s /\ view w' s = view w s).
Proof.
  intros (a & Ha & Hcap & _) HlD HD. cbn in Ha, Hcap.
  unfold append. cbn [len cap base off]. rewrite Nat.add_0_l, Nat.add_0_r.
  destruct (Nat.leb_spec (length d) c) as [Hfit|Hbig].
  - (* in place *)
    unfold bind, store_at, ret.
    eexists _, _. split; [reflexivity|].
    assert (forall a0, arrays w !! l = Some a0 -> length (splice o d a0) = length a0) as Hlen.
    { intros a0 Ha0. apply splice_length. rewrite Ha in Ha0. injection Ha0 as <-. lia. }
    split; [eapply view_store; [done|lia]|].
    split; [done|].
    split.
    { exists (splice o d a). unfold upd_array. cbn.
      rewrite lookup_alter_eq, Ha. cbn. rewrite (Hlen a Ha). split; [done|]. lia. }
    split; [done|]. split; [by left|].
    split.
    { split; [|done]. intros l' Hl'. unfold upd_array. cbn.
      rewrite lookup_alter_ne; [done|]. intros ->. done. }
    split; [done|].
    intros s Hs Hne. split; [by apply slice_ok_upd|by apply view_upd_other].
  - (* in a new array *)
    unfold bind, load, alloc_array, ret.
    set (n := length d). set (c' := Nat.max n (growslice c n)).
    set (l' := fresh (dom (arrays w))).
    assert (view w (Slice l o 0 c) = []) as -> by (unfold view; by rewrite take_0).
    eexists _, _. split; [reflexivity|]. cbn [app].
    assert (arrays w !! l' = None) as Hfresh by apply fresh_array_unused.
    split.
    { unfold view, read_array, add_array. cbn. rewrite lookup_insert_eq. cbn.
      rewrite drop_0. unfold n. by rewrite take_app_length. }
    split; [done|].
    split.
    { exists (d ++ replicate (c' - n) 0). unfold add_array. cbn.
      rewrite lookup_insert_eq. split; [done|].
      rewrite length_app, length_replicate. fold n. lia. }
    assert (l' ∉ D) as Hl'D.
    { intros Hin. apply HD in Hin. by apply is_fresh in Hin. }
    split; [done|]. split; [right; apply is_fresh|].
    split.
    { split; [|done]. intros l0 Hl0. unfold add_array. cbn.
      rewrite lookup_insert_ne; [done|]. intros ->. done. }
    split; [done|].
    intros s Hs Hne. pose proof (slice_ok_not_fresh _ _ Hs).
    split; [by apply slice_ok_add|by apply view_add_other].
Qed.


Lemma Key_body_eq w t tr offset buf k i :
  trees w !! t = Some tr ->
  0 <= i < depth tr -> depth tr < 2 ^ 64 ->
  len buf = 16%nat ->
  let d := level_blockSize tr (depth tr - i) in
  Key_body t offset buf k i w =
    if d =? 0 then (Panicked DivideByZero, w)
    else
      let y := offset / d in
      let w2 := upd_array (splice (off buf + 8) (le_bytes 8 y)) (base buf)
                 (upd_array (splice (off buf) (le_bytes 8 i)) (base buf) w) in
      let kb := view w2 k in
      let w3 := add_event (EvKeyed kb) w2 in
      let h := hash_write (alg tr kb) (view w3 buf) in
      let w4 := add_event (EvWrite (view w3 buf)) w3 in
      append (Slice (base k) (off k) 0 (cap k)) (hash_digest h)
             (add_event (EvSum (hash_digest h)) w4).
Proof.
  intros Ht Hi Hd Hlen d.
  unfold Key_body, bind, deref. rewrite Ht.
  unfold wrap64 at 2 3. rewrite (Z.mod_small (depth tr - i)) by lia.
  rewrite (Z.mod_small (depth tr - i - 1)) by lia.
  fold (level_blockSize tr (depth tr - i)). fold d.
  unfold udiv. destruct (d =? 0); [reflexivity|].
  unfold ret, PutUint64, slice_from, slice_to, keyed, Write, Sum, load, emit, store_at, bind.
  rewrite Hlen. cbn [Nat.ltb Nat.leb len base off cap Nat.sub].
  reflexivity.
Qed.

Lemma preserves_dom (D : gset loc) w w' :
  preserves D w w' -> D ⊆ dom (arrays w) -> D ⊆ dom (arrays w').
Proof.
  intros [Hp _] HD l Hl. apply elem_of_dom. rewrite (Hp l Hl).
  apply elem_of_dom, HD, Hl.
Qed.

Lemma Key_body_spec D w t tr offset buf k kb i :
  trees w !! t = Some tr ->
  key_inv D w buf k kb ->
  0 <= i < depth tr -> depth tr < 2 ^ 64 ->
  level_blockSize tr (depth tr - i) <> 0 ->
  let y := offset / level_blockSize tr (depth tr - i) in
  let kb' := derive (alg tr) kb i y in
  exists k' w',
    Key_body t offset buf k i w = (Ok k', w') /\
    key_inv D w' buf k' kb' /\ len k' = length kb' /\
    (base k' = base k \/ base k' ∉ dom (arrays w)) /\
    preserves D w w' /\
    trace w' = trace w ++ [EvKeyed kb; EvWrite (index_buffer i y); EvSum kb'].
Proof.
  intros Ht (HD & HbD & HkD & Hbk & Hbuf & Hlen & Hk & Hview) Hi Hd Hnz y kb'.
  rewrite (Key_body_eq w t tr) by done. cbv zeta.
  destruct (Z.eqb_spec (level_blockSize tr (depth tr - i)) 0) as [|_]; [done|].
  fold y.
  set (w1 := upd_array (splice (off buf) (le_bytes 8 i)) (base buf) w).
  set (w2 := upd_array (splice (off buf + 8) (le_bytes 8 y)) (base buf) w1).
  destruct Hbuf as (ba & Hba & Hbcap & Hblen).
  (* the two stores keep every array's length *)
  assert (forall a0, arrays w !! base buf = Some a0 ->
                     length (splice (off buf) (le_bytes 8 i) a0) = length a0) as Hl1.
  { intros a0 Ha0. rewrite Hba in Ha0. injection Ha0 as <-.
    apply splice_length. rewrite le_bytes_length. lia. }
  assert (forall a0, arrays w1 !! base buf = Some a0 ->
                     length (splice (off buf + 8) (le_bytes 8 y) a0) = length a0) as Hl2.
  { intros a0 Ha0. unfold w1, upd_array in Ha0. cbn [arrays] in Ha0.
    rewrite lookup_alter_eq, Hba in Ha0.
    change (Some (splice (off buf) (le_bytes 8 i) ba) = Some a0) in Ha0.
    injection Ha0 as <-.
    apply splice_length. rewrite le_bytes_length, (Hl1 ba Hba). lia. }
  assert (view w2 k = kb) as Hk2.
  { unfold w2, w1. rewrite !view_upd_other by done. done. }
  assert (slice_ok w2 k) as Hkok2.
  { unfold w2. apply slice_ok_upd; [done|]. unfold w1. by apply slice_ok_upd. }
  assert (view w2 buf = index_buffer i y) as Hb2.
  { destruct buf as [lb ob nb cb]. cbn in *. subst nb. unfold w2, w1.
    pose proof (view_store2 w lb ob (le_bytes 8 i) (le_bytes 8 y) ba Hba) as Hv.
    rewrite !le_bytes_length in Hv. cbn [Nat.add] in Hv.
    unfold view in *. cbn [len base off] in *. apply Hv. lia. }
  assert (slice_ok w2 buf) as Hbok2.
  { unfold w2. apply slice_ok_upd; [done|]. unfold w1. apply slice_ok_upd; [done|].
    exists ba. done. }
  rewrite Hk2. rewrite !view_add_event, Hb2.
  fold (derive (alg tr) kb i y). fold kb'.
  set (w4 := add_event _ (add_event _ (add_event _ w2))).
  assert (slice_ok w4 (Slice (base k) (off k) 0 (cap k))) as Hk0.
  { destruct Hkok2 as (ka & Hka & Hkcap & Hklen). exists ka. cbn.
    split; [done|]. split; [done|lia]. }
  assert (D ⊆ dom (arrays w4)) as HD4.
  { unfold w4. cbn. rewrite !dom_alter_L. done. }
  destruct (append_empty_spec D w4 (base k) (off k) (cap k) kb' Hk0 HkD HD4)
    as (k' & w' & Happ & Hv' & Hlen' & Hok' & Hk'D & Hwhere & Hpres & Htr & Hothers).
  exists k', w'. split; [done|].
  destruct (Hothers buf) as [Hbok' Hbv']; [done|done|].
  split.
  { split; [|split; [done|split; [done|split; [|split; [done|split; [done|split; done]]]]]].
    - by apply (preserves_dom D w4).
    - destruct Hwhere as [->|Hnew]; [done|].
      intros Heq. apply Hnew. rewrite <- Heq. unfold w4. cbn. rewrite !dom_alter_L.
      apply elem_of_dom. eauto. }
  split; [done|].
  split.
  { destruct Hwhere as [->|Hnew]; [by left|right].
    unfold w4 in Hnew. cbn in Hnew. by rewrite !dom_alter_L in Hnew. }
  split.
  { eapply preserves_trans; [|exact Hpres]. split; [|done].
    intros l Hl. unfold w4. cbn. rewrite !lookup_alter_ne; [done|intros <-; done|intros <-; done]. }
  rewrite Htr. unfold w4. cbn. rewrite <- !app_assoc. done.
Qed.

Lemma Key_body_zero w t tr offset buf k kb i D :
  trees w !! t = Some tr ->
  key_inv D w buf k kb ->
  0 <= i < depth tr -> depth tr < 2 ^ 64 ->
  level_blockSize tr (depth tr - i) = 0 ->
  Key_body t offset buf k i w = (Panicked DivideByZero, w).
Proof.
  intros Ht (_ & _ & _ & _ & _ & Hlen & _) Hi Hd Hz.
  rewrite (Key_body_eq w t tr) by done. cbv zeta. by rewrite Hz.
Qed.

Lemma Key_loop_spec n : forall D w t tr offset buf k kb i,
  trees w !! t = Some tr ->
  key_inv D w buf k kb ->
  0 <= i -> i + Z.of_nat n = depth tr -> depth tr < 2 ^ 64 ->
  exists w',
    preserves D w w' /\
    trace w' = trace w ++ walk_trace tr offset n i kb /\
    match walk tr offset n i kb with
    | Some kf =>
        exists s, Key_loop n t offset buf k i w = (Ok s, w') /\
                  view w' s = kf /\ slice_ok w' s /\ (base s ∉ D)
    | None => Key_loop n t offset buf k i w = (Panicked DivideByZero, w')
    end.
Proof.
  induction n as [|n IH]; intros D w t tr offset buf k kb i Ht Hinv Hi Hn Hd.
  - exists w. split; [apply preserves_refl|]. split; [by rewrite app_nil_r|].
    cbn. exists k. destruct Hinv as (_ & _ & HkD & _ & _ & _ & Hk & Hv). done.
  - cbn [walk walk_trace Key_loop]. unfold bind.
    destruct (Z.eqb_spec (level_blockSize tr (depth tr - i)) 0) as [Hz|Hnz].
    + exists w. split; [apply preserves_refl|]. split; [by rewrite app_nil_r|].
      rewrite (Key_body_zero w t tr offset buf k kb i D) by (done || lia). done.
    + destruct (Key_body_spec D w t tr offset buf k kb i Ht Hinv) as
        (k' & w1 & Hbody & Hinv1 & _ & _ & Hpres1 & Htr1); [lia|done|done|].
      rewrite Hbody.
      assert (wrap64 (i + 1) = i + 1) as -> by (apply Z.mod_small; lia).
      assert (trees w1 !! t = Some tr) as Ht1 by (destruct Hpres1 as [_ ->]; done).
      destruct (IH D w1 t tr offset buf k' _ (i + 1) Ht1 Hinv1) as (w' & Hpres & Htr & Hres);
        [lia|lia|done|].
      exists w'. split; [by eapply preserves_trans|].
      split; [rewrite Htr, Htr1, <- app_assoc; done|]. done.
Qed.


Lemma Key_out_of_range w t tr offset :
  trees w !! t = Some tr -> maxSize tr < offset ->
  Key t offset w = (Panicked OffsetOutOfRange, w).
Proof.
  intros Ht Hlt. unfold Key, bind, deref. rewrite Ht.
  destruct (Z.ltb_spec (maxSize tr) offset); [done|lia].
Qed.

Lemma Key_spec w t tr offset :
  tree_at w t tr -> offset <= maxSize tr ->
  let rootKey := view w (root tr) in
  exists w',
    preserves (dom (arrays w)) w w' /\
    trace w' = trace w ++ walk_trace tr offset (Z.to_nat (depth tr)) 0 rootKey /\
    match key_of tr rootKey offset with
    | Some kf =>
        exists s, Key t offset w = (Ok s, w') /\
                  view w' s = kf /\ slice_ok w' s /\ (base s ∉ dom (arrays w))
    | None => Key t offset w = (Panicked DivideByZero, w')
    end.
Proof.
  intros (Ht & Hroot & HB & HM & Hd) Hle rootKey.
  pose (lb := fresh (dom (arrays w))).
  pose (w1 := add_array lb (replicate 16 0) w).
  pose (lk := fresh (dom (arrays w1))).
  pose (w2 := add_array lk (replicate (len (root tr)) 0) w1).
  pose (buf := Slice lb 0 16 16).
  pose (k := Slice lk 0 (len (root tr)) (len (root tr))).
  pose (w3 := upd_array (splice 0 rootKey) lk w2).
  assert (lb ∉ dom (arrays w)) as Hlb by apply is_fresh.
  assert (lk ∉ dom (arrays w1)) as Hlk by apply is_fresh.
  assert (dom (arrays w1) = {[lb]} ∪ dom (arrays w)) as Hdom1 by apply dom_insert_L.
  assert (lk <> lb /\ lk ∉ dom (arrays w)) as [Hne HlkD].
  { rewrite Hdom1 in Hlk. split.
    - intros Heq. apply Hlk. rewrite Heq. apply elem_of_union_l, elem_of_singleton. done.
    - intros Hin. apply Hlk. by apply elem_of_union_r. }
  assert (base (root tr) <> lb /\ base (root tr) <> lk) as [Hr1 Hr2].
  { apply slice_ok_dom in Hroot. split; intros Heq; rewrite Heq in Hroot; done. }
  assert (view w2 (root tr) = rootKey) as Hv2.
  { unfold w2, w1. by rewrite !view_add_other. }
  assert (length rootKey = len (root tr)) as Hlen by (by apply view_length).
  assert (Key t offset w = Key_loop (Z.to_nat (depth tr)) t offset buf k 0 w3) as HKey.
  { unfold Key, bind, deref. rewrite Ht.
    destruct (Z.ltb_spec (maxSize tr) offset) as [|_]; [lia|].
    unfold make, copy, bind, alloc_array, load, store_at, ret. cbn [len base off].
    rewrite Nat.min_id. fold lb. fold w1. fold lk. fold w2. rewrite Hv2.
    rewrite (take_ge rootKey (len (root tr))) by lia. reflexivity. }
  rewrite HKey. clear HKey.
  assert (preserves (dom (arrays w)) w w3) as Hpres.
  { split; [|done]. intros l Hl. unfold w3, w2, w1, upd_array, add_array. cbn.
    assert (lk <> l) by (intros Heq; apply HlkD; by rewrite Heq).
    assert (lb <> l) by (intros Heq; apply Hlb; by rewrite Heq).
    rewrite lookup_alter_ne; [|done]. rewrite !lookup_insert_ne; done. }
  assert (key_inv (dom (arrays w)) w3 buf k rootKey) as Hinv.
  { split; [by apply (preserves_dom _ w)|].
    split; [done|]. split; [done|]. split; [cbn; congruence|].
    assert (arrays w2 !! lk = Some (replicate (length rootKey) 0)) as Hk2.
    { unfold w2, add_array. cbn [arrays]. by rewrite lookup_insert_eq, Hlen. }
    split.
    { apply slice_ok_upd.
      - intros a Ha. rewrite Hk2 in Ha. injection Ha as <-.
        apply splice_length. rewrite length_replicate. lia.
      - exists (replicate 16 0). unfold w2, w1, add_array. cbn.
        rewrite lookup_insert_ne, lookup_insert_eq by done. done. }
    split; [done|].
    split.
    { exists (splice 0 rootKey (replicate (length rootKey) 0)).
      unfold w3, upd_array, k. cbn [arrays base off len cap].
      rewrite lookup_alter_eq, Hk2.
      rewrite splice_length by (rewrite length_replicate; lia).
      rewrite length_replicate. split; [done|]. lia. }
    unfold w3, k. rewrite <- Hlen.
    eapply view_store; [exact Hk2|]. rewrite length_replicate. lia. }
  destruct (Key_loop_spec (Z.to_nat (depth tr)) (dom (arrays w)) w3 t tr offset
                          buf k rootKey 0)
    as (w' & Hpres' & Htr & Hres); [done|done|lia|lia|lia|].
  exists w'. split; [by eapply preserves_trans|]. split; [exact Htr|].
  unfold key_of. exact Hres.
Qed.

End KeyFacts.

(** ** Facts on binary64 *)

Lemma digits2_pos_bounds (p : positive) :
  2 ^ (Zpos (digits2_pos p) - 1) <= Zpos p < 2 ^ Zpos (digits2_pos p).
Proof.
  induction p as [p IH|p IH|]; cbn [digits2_pos].
  - rewrite Pos2Z.inj_succ. replace (Z.succ (Z.pos (digits2_pos p)) - 1)
      with (Z.succ (Z.pos (digits2_pos p) - 1)) by lia.
    rewrite !Z.pow_succ_r by lia. lia.
  - rewrite Pos2Z.inj_succ. replace (Z.succ (Z.pos (digits2_pos p)) - 1)
      with (Z.succ (Z.pos (digits2_pos p) - 1)) by lia.
    rewrite !Z.pow_succ_r by lia. lia.
  - cbn. lia.
Qed.

Lemma digits2_pos_unique (p : positive) (k : Z) :
  2 ^ (k - 1) <= Zpos p < 2 ^ k -> Zpos (digits2_pos p) = k.
Proof.
  intros [Hlo Hhi]. pose proof (digits2_pos_bounds p) as [Hlo' Hhi'].
  assert (0 < k).
  { destruct (Z.ltb_spec 0 k) as [|Hk]; [done|].
    assert (2 ^ k <= 1); [|lia].
    destruct (Z.eq_dec k 0) as [->|]; [done|]. rewrite Z.pow_neg_r; lia. }
  assert (k - 1 < Zpos (digits2_pos p)).
  { apply (Z.pow_lt_mono_r_iff 2); lia. }
  assert (Zpos (digits2_pos p) - 1 < k).
  { apply (Z.pow_lt_mono_r_iff 2); lia. }
  lia.
Qed.

Lemma shr_1_m mrs : 0 <= shr_m mrs -> shr_m (shr_1 mrs) = shr_m mrs / 2.
Proof.
  destruct mrs as [m r s]. cbn [shr_m]. intros Hm.
  destruct m as [|[p|p|]|p]; cbn [shr_1 shr_m]; [done| | |done|lia].
  - apply (Z.div_unique _ _ _ 1); lia.
  - apply (Z.div_unique _ _ _ 0); lia.
Qed.

Lemma shr_iter_m (n : positive) : forall mrs,
  0 <= shr_m mrs -> shr_m (SpecFloat.iter_pos shr_1 n mrs) = shr_m mrs / 2 ^ Zpos n.
Proof.
  assert (forall a, 0 <= a -> 0 <= a / 2) as Hd2 by (intros; apply Z.div_pos; lia).
  induction n as [n IH|n IH|]; intros mrs Hm; cbn [SpecFloat.iter_pos].
  - assert (0 <= shr_m (shr_1 mrs)) by (rewrite shr_1_m by done; auto).
    assert (0 <= shr_m (SpecFloat.iter_pos shr_1 n (shr_1 mrs))).
    { rewrite IH by done. apply Z.div_pos; lia. }
    rewrite IH, IH, shr_1_m by done.
    rewrite !Z.div_div by lia. f_equal.
    replace (Z.pos n~1) with (1 + Z.pos n + Z.pos n) by lia.
    rewrite !Z.pow_add_r by lia. ring.
  - assert (0 <= shr_m (SpecFloat.iter_pos shr_1 n mrs)).
    { rewrite IH by done. apply Z.div_pos; lia. }
    rewrite IH, IH by done. rewrite Z.div_div by lia. f_equal.
    replace (Z.pos n~0) with (Z.pos n + Z.pos n) by lia.
    rewrite !Z.pow_add_r by lia. ring.
  - by rewrite shr_1_m.
Qed.

Lemma iter_xO_val (p k : positive) : Zpos (Pos.iter xO p k) = Zpos p * 2 ^ Zpos k.
Proof.
  induction k as [|k IH] using Pos.peano_ind.
  - cbn. lia.
  - rewrite Pos.iter_succ, Pos2Z.inj_xO, IH, Pos2Z.inj_succ, Z.pow_succ_r by lia. lia.
Qed.

Lemma round_nearest_even_bounds m l :
  m <= round_nearest_even m l <= m + 1.
Proof. destruct l as [|[]]; cbn; try lia. destruct (Z.even m); lia. Qed.

Lemma round_aux_exact sx (m : positive) e :
  Zpos (digits2_pos m) = 53 -> -1074 <= e <= 971 ->
  binary_round_aux 53 1024 sx (Zpos m) e loc_Exact = S754_finite sx m e.
Proof.
  intros Hd He.
  assert (shr_fexp 53 1024 (Zpos m) e loc_Exact
          = (Build_shr_record (Zpos m) false false, e)) as Hshr.
  { unfold shr_fexp, fexp, emin. cbn [Zdigits2]. rewrite Hd.
    replace (Z.max (53 + e - 53) (3 - 1024 - 53) - e) with 0 by lia. reflexivity. }
  unfold binary_round_aux. rewrite Hshr. cbn [shr_m loc_of_shr_record round_nearest_even].
  rewrite Hshr. cbn [shr_m].
  destruct (Z.leb_spec e (1024 - 53)); [done|lia].
Qed.

Lemma round_aux_shift sx (p k : positive) :
  Zpos (digits2_pos p) = 53 + Zpos k -> Zpos k <= 900 ->
  finite_nonzero (binary_round_aux 53 1024 sx (Zpos p) 0 loc_Exact).
Proof.
  intros Hd Hk.
  pose proof (digits2_pos_bounds p) as [Hlo Hhi]. rewrite Hd in Hlo, Hhi.
  replace (53 + Z.pos k - 1) with (52 + Z.pos k) in Hlo by lia.
  rewrite Z.pow_add_r in Hlo, Hhi by lia.
  set (mrs := SpecFloat.iter_pos shr_1 k (Build_shr_record (Zpos p) false false)).
  assert (shr_fexp 53 1024 (Zpos p) 0 loc_Exact = (mrs, Zpos k)) as Hshr.
  { unfold shr_fexp, fexp, emin. cbn [Zdigits2]. rewrite Hd.
    replace (Z.max (53 + Z.pos k + 0 - 53) (3 - 1024 - 53) - 0) with (Zpos k) by lia.
    reflexivity. }
  assert (shr_m mrs = Zpos p / 2 ^ Zpos k) as Hm.
  { unfold mrs. rewrite shr_iter_m; cbn [shr_m]; [done|lia]. }
  assert (2 ^ 52 <= shr_m mrs < 2 ^ 53) as Hb.
  { rewrite Hm. split.
    - apply Z.div_le_lower_bound; lia.
    - apply Z.div_lt_upper_bound; lia. }
  unfold binary_round_aux. rewrite Hshr.
  pose proof (round_nearest_even_bounds (shr_m mrs) (loc_of_shr_record mrs)) as Hr.
  destruct (round_nearest_even (shr_m mrs) (loc_of_shr_record mrs)) as [|q|q] eqn:Hq;
    [lia| |lia].
  destruct (Z.ltb_spec (Zpos q) (2 ^ 53)) as [Hlt|Hge].
  - (* still 53 digits *)
    assert (Zpos (digits2_pos q) = 53) as Hdq by (apply digits2_pos_unique; lia).
    assert (shr_fexp 53 1024 (Zpos q) (Zpos k) loc_Exact
            = (Build_shr_record (Zpos q) false false, Zpos k)) as ->.
    { unfold shr_fexp, fexp, emin. cbn [Zdigits2]. rewrite Hdq.
      replace (Z.max (53 + Z.pos k - 53) (3 - 1024 - 53) - Z.pos k) with 0 by lia.
      reflexivity. }
    cbn [shr_m]. destruct (Z.leb_spec (Zpos k) (1024 - 53)); [done|lia].
  - (* rounded up to 2^53 *)
    assert (q = 9007199254740992%positive) as -> by lia.
    assert (shr_fexp 53 1024 (Zpos 9007199254740992) (Zpos k) loc_Exact
            = (Build_shr_record (Zpos 4503599627370496) false false, Zpos k + 1)) as ->.
    { unfold shr_fexp, fexp, emin.
      change (Zdigits2 (Zpos 9007199254740992)) with 54.
      replace (Z.max (54 + Z.pos k - 53) (3 - 1024 - 53) - Z.pos k) with 1 by lia.
      reflexivity. }
    cbn [shr_m]. destruct (Z.leb_spec (Zpos k + 1) (1024 - 53)); [done|lia].
Qed.

(** The conversion of a [uint64] other than zero is a finite number other
    than zero. *)
Lemma of_uint64_finite n : 0 < n < 2 ^ 64 -> finite_nonzero (of_uint64 n).
Proof.
  intros Hn. destruct n as [|p|p]; try lia.
  unfold of_uint64, of_Z, binary_normalize, binary_round, F64.prec, F64.emax.
  pose proof (digits2_pos_bounds p) as [Hlo Hhi].
  set (d := Zpos (digits2_pos p)) in *.
  assert (1 <= d <= 64) as Hd.
  { split; [unfold d; lia|].
    assert (d - 1 < 64); [|lia]. apply (Z.pow_lt_mono_r_iff 2); lia. }
  unfold fexp, emin. rewrite Z.add_0_r.
  replace (Z.max (d - 53) (3 - 1024 - 53)) with (d - 53) by lia.
  unfold shl_align.
  destruct (d - 53 - 0) as [|k|k] eqn:Hs.
  - (* exactly 53 digits *)
    rewrite round_aux_exact; [done|unfold d in *; lia|lia].
  - (* more: the low bits are rounded away *)
    apply (round_aux_shift false p k); unfold d in *; lia.
  - (* fewer: the mantissa is shifted left *)
    pose proof (Pos2Z.opp_pos k) as Hopp.
    rewrite round_aux_exact; [done| |lia].
    apply digits2_pos_unique. rewrite iter_xO_val.
    assert (Zpos k = 53 - d) as Hk by lia.
    assert (0 < 2 ^ Zpos k) as Hpos by (apply Z.pow_pos_nonneg; lia).
    assert (2 ^ (53 - 1) = 2 ^ (d - 1) * 2 ^ Zpos k) as ->.
    { rewrite <- Z.pow_add_r by lia. f_equal. lia. }
    assert (2 ^ 53 = 2 ^ d * 2 ^ Zpos k) as ->.
    { rewrite <- Z.pow_add_r by lia. f_equal. lia. }
    split; [apply Z.mul_le_mono_nonneg_r; lia|apply Z.mul_lt_mono_pos_r; lia].
Qed.

Lemma div_eucl_shift (m : positive) :
  Z.div_eucl (Z.shiftl (Zpos m) 53) (Zpos m) = (2 ^ 53, 0).
Proof.
  rewrite Z.shiftl_mul_pow2 by lia.
  destruct (Z.div_eucl (Z.pos m * 2 ^ 53) (Z.pos m)) as [q r] eqn:He.
  assert (q = (Z.pos m * 2 ^ 53) / Z.pos m) as -> by (unfold Z.div; by rewrite He).
  assert (r = (Z.pos m * 2 ^ 53) mod Z.pos m) as -> by (unfold Z.modulo; by rewrite He).
  rewrite (Z.mul_comm (Z.pos m)), Z.div_mul, Z.mod_mul by lia. done.
Qed.

(** A finite number divided by itself is one. *)
Lemma div_self (x : float64) : finite_nonzero x -> F64.div x x = one.
Proof.
  destruct x as [| | |s m e]; try done. intros _.
  unfold F64.div, SFdiv, SFdiv_core_binary.
  rewrite !Z.sub_diag.
  change (Z.min (fexp prec emax 0) 0) with (-53).
  change (0 - -53) with 53.
  cbv iota. rewrite div_eucl_shift.
  assert (new_location (Z.pos m) 0 = loc_Exact) as ->.
  { unfold new_location, new_location_even, new_location_odd.
    by destruct (Z.even (Z.pos m)). }
  by destruct s.
Qed.

Section DepthFacts.
Context `{Platform}.

Lemma to_uint64_range f : 0 <= to_uint64 f < 2 ^ 64.
Proof.
  unfold to_uint64.
  assert (forall z, 0 <= wrap64 z < 2 ^ 64) as Hw by (intros z; apply Z.mod_pos_bound; lia).
  destruct (trunc f) as [n|]; [|apply Hw].
  destruct (Z.leb_spec 0 n), (Z.ltb_spec n (2 ^ 64)); cbn; try apply Hw. lia.
Qed.

(** The depth of the tree of the test: one, on a platform whose [Log 8] is a
    finite number other than zero. *)
Lemma depth_of_test :
  finite_nonzero (Log (of_uint64 8)) -> depth_of 2 16 (of_uint64 8) = 1.
Proof.
  intros Hlog. unfold depth_of.
  change (F64.div (of_uint64 16) (of_uint64 2)) with (of_uint64 8).
  rewrite div_self by done. reflexivity.
Qed.
End DepthFacts.

(** ** What [Key] leaves alone, and offsets of one block *)


Lemma keeps_ret {A} (a : A) : keeps_trees (ret a).
Proof. done. Qed.

Lemma keeps_throw {A} p : keeps_trees (@throw A p).
Proof. done. Qed.

Lemma keeps_bind {A B} (m : M A) (k : A -> M B) :
  keeps_trees m -> (forall a, keeps_trees (k a)) -> keeps_trees (bind m k).
Proof.
  intros Hm Hk w. unfold bind. specialize (Hm w).
  destruct (m w) as [[a|p] w1]; cbn in *; [|done].
  by rewrite Hk.
Qed.

Lemma keeps_if {A} (b : bool) (m1 m2 : M A) :
  keeps_trees m1 -> keeps_trees m2 -> keeps_trees (if b then m1 else m2).
Proof. by destruct b. Qed.

Create HintDb keeps.
#[local] Hint Resolve keeps_ret keeps_throw : keeps.
#[local] Hint Extern 2 (keeps_trees (bind _ _)) => apply keeps_bind; [|intros] : keeps.
#[local] Hint Extern 2 (keeps_trees (if _ then _ else _)) => apply keeps_if : keeps.
#[local] Hint Extern 1 (keeps_trees (emit _)) => (intros ?; reflexivity) : keeps.
#[local] Hint Extern 1 (keeps_trees (store_at _ _ _)) => (intros ?; reflexivity) : keeps.
#[local] Hint Extern 1 (keeps_trees (alloc_array _)) => (intros ?; reflexivity) : keeps.
#[local] Hint Extern 1 (keeps_trees (load _)) => (intros ?; reflexivity) : keeps.

Lemma keeps_deref t : keeps_trees (deref t).
Proof. intros w. unfold deref. by destruct (trees w !! t). Qed.
#[local] Hint Resolve keeps_deref : keeps.

Section SameBlock.
Context `{Platform}.

Lemma keeps_Key_body t offset buf k i : keeps_trees (Key_body t offset buf k i).
Proof.
  unfold Key_body, udiv, PutUint64, slice_from, slice_to, keyed, Write, Sum, append.
  auto 20 with keeps.
Qed.

Lemma keeps_Key_loop n : forall t offset buf k i,
  keeps_trees (Key_loop n t offset buf k i).
Proof.
  induction n as [|n IH]; intros; cbn [Key_loop]; [apply keeps_ret|].
  apply keeps_bind; [apply keeps_Key_body|auto].
Qed.

(** [Key] never writes to a tree object. *)
Lemma Key_keeps_trees t offset : keeps_trees (Key t offset).
Proof.
  unfold Key, make, copy.
  repeat (first [apply keeps_bind; [|intros] | apply keeps_if | apply keeps_Key_loop ]);
    auto with keeps.
Qed.

(** Offsets with the same node index at a level run the same iteration. *)
Lemma Key_body_same w t tr o1 o2 buf k i :
  trees w !! t = Some tr ->
  0 <= i < depth tr -> depth tr < 2 ^ 64 -> len buf = 16%nat ->
  o1 / level_blockSize tr (depth tr - i) = o2 / level_blockSize tr (depth tr - i) ->
  Key_body t o1 buf k i w = Key_body t o2 buf k i w.
Proof.
  intros Ht Hi Hd Hlen Hy. rewrite !(Key_body_eq w t tr) by done. cbv zeta.
  by rewrite Hy.
Qed.

Lemma Key_loop_same n : forall w t tr o1 o2 buf k i,
  trees w !! t = Some tr ->
  0 <= i -> i + Z.of_nat n = depth tr -> depth tr < 2 ^ 64 -> len buf = 16%nat ->
  (forall level, 1 <= level <= depth tr ->
                 o1 / level_blockSize tr level = o2 / level_blockSize tr level) ->
  Key_loop n t o1 buf k i w = Key_loop n t o2 buf k i w.
Proof.
  induction n as [|n IH]; intros w t tr o1 o2 buf k i Ht Hi Hn Hd Hlen Hy; [done|].
  cbn [Key_loop]. unfold bind.
  rewrite (Key_body_same w t tr o1 o2) by (done || lia || (apply Hy; lia)).
  pose proof (keeps_Key_body t o2 buf k i w) as Hkeep.
  destruct (Key_body t o2 buf k i w) as [[k'|p] w1]; [|done]. cbn in Hkeep.
  assert (wrap64 (i + 1) = i + 1) as -> by (apply Z.mod_small; lia).
  apply (IH w1 t tr); try done; try lia. by rewrite Hkeep.
Qed.

(** [Key] on an offset in range: the two allocations, the copy, then the
    loop. *)
Lemma Key_eq w t tr offset :
  trees w !! t = Some tr -> offset <= maxSize tr ->
  let lb := fresh (dom (arrays w)) in
  let w1 := add_array lb (replicate 16 0) w in
  let lk := fresh (dom (arrays w1)) in
  let w2 := add_array lk (replicate (len (root tr)) 0) w1 in
  let w3 := upd_array (splice 0 (take (len (root tr)) (view w2 (root tr)))) lk w2 in
  Key t offset w =
    Key_loop (Z.to_nat (depth tr)) t offset (Slice lb 0 16 16)
             (Slice lk 0 (len (root tr)) (len (root tr))) 0 w3.
Proof.
  intros Ht Hle. cbv zeta. unfold Key, bind, deref. rewrite Ht.
  destruct (Z.ltb_spec (maxSize tr) offset) as [|_]; [lia|].
  unfold make, copy, bind, alloc_array, load, store_at, ret. cbn [len base off].
  by rewrite Nat.min_id.
Qed.

Lemma Key_same w t tr o1 o2 :
  trees w !! t = Some tr -> 0 <= depth tr < 2 ^ 64 ->
  o1 <= maxSize tr -> o2 <= maxSize tr ->
  (forall level, 1 <= level <= depth tr ->
                 o1 / level_blockSize tr level = o2 / level_blockSize tr level) ->
  Key t o1 w = Key t o2 w.
Proof.
  intros Ht Hd H1 H2 Hy. rewrite !(Key_eq w t tr) by done. cbv zeta.
  apply Key_loop_same with (tr := tr); try done; lia.
Qed.

(** Offsets of one leaf block have the same node index at every level
    whose block size is a multiple of the leaf block size. *)
Lemma same_block_same_index (B d o1 o2 : Z) :
  0 <= B -> 0 <= d -> (B | d) -> o1 / B = o2 / B -> o1 / d = o2 / d.
Proof.
  intros HB Hd [c ->] Ho.
  destruct (Z.eq_dec B 0) as [->|HB0]; [by rewrite Z.mul_0_r, !Z.div_0_r|].
  destruct (Z.eq_dec c 0) as [->|Hc0]; [by rewrite Z.mul_0_l, !Z.div_0_r|].
  assert (0 < c) by nia.
  rewrite (Z.mul_comm c B), <- !Z.div_div by lia. by rewrite Ho.
Qed.
End SameBlock.

(** ** The properties of [Key] *)

Section KeyProperties.
Context `{Platform}.



Lemma Key_runs w t tr offset :
  tree_at w t tr ->
  exists w',
    preserves (dom (arrays w)) w w' /\
    match Key_result tr (view w (root tr)) offset with
    | Ok kf =>
        exists s, Key t offset w = (Ok s, w') /\ view w' s = kf /\
                  slice_ok w' s /\ (base s ∉ dom (arrays w))
    | Panicked p => Key t offset w = (Panicked p, w')
    end.
Proof.
  intros Htree. unfold Key_result.
  destruct (Z.ltb_spec (maxSize tr) offset) as [Hlt|Hle].
  - exists w. split; [apply preserves_refl|].
    apply (Key_out_of_range w t tr); [apply Htree|done].
  - destruct (Key_spec w t tr offset Htree Hle) as (w' & Hpres & _ & Hres).
    exists w'. split; [done|].
    destruct (key_of tr (view w (root tr)) offset); done.
Qed.

Lemma tree_at_preserved w w' t tr :
  tree_at w t tr -> preserves (dom (arrays w)) w w' ->
  tree_at w' t tr /\ view w' (root tr) = view w (root tr).
Proof.
  intros (Ht & Hroot & Hrest) Hpres. pose proof (slice_ok_dom _ _ Hroot) as Hdom.
  split; [|by eapply view_preserved].
  split; [destruct Hpres as [_ ->]; done|]. split; [|done].
  destruct Hroot as (a & Ha & Hb). exists a. split; [|done].
  destruct Hpres as [Hp _]. by rewrite Hp.
Qed.

Lemma Key_deterministic w1 w2 t1 t2 tr offset :
  tree_at w1 t1 tr -> tree_at w2 t2 tr ->
  view w1 (root tr) = view w2 (root tr) ->
  same_outcome (Key t1 offset w1) (Key t2 offset w2).
Proof.
  intros H1 H2 Hv.
  destruct (Key_runs w1 t1 tr offset H1) as (w1' & _ & Hr1).
  destruct (Key_runs w2 t2 tr offset H2) as (w2' & _ & Hr2).
  rewrite <- Hv in Hr2. unfold same_outcome.
  destruct (Key_result tr (view w1 (root tr)) offset) as [kf|p].
  - destruct Hr1 as (s1 & -> & Hv1 & _), Hr2 as (s2 & -> & Hv2 & _). cbn. congruence.
  - by rewrite Hr1, Hr2.
Qed.

(** X18. The bound check of [Key].  [Key] fails with the panic "offset
    greater than maximum size" exactly when the offset exceeds [maxSize]:
    the check is inclusive, so it lets [maxSize] itself through and refuses
    [maxSize + 1]; the refusal comes before anything else is done, leaving
    the world (arrays, tree objects and the trace of hashing) as it was.
    An offset that the check lets through derives a key when no block size
    of a level is zero. *)
Theorem Key_offset_check w t tr offset :
  tree_at w t tr -> 0 <= offset < 2 ^ 64 ->
  (fst (Key t offset w) = Panicked OffsetOutOfRange <-> maxSize tr < offset) /\
  (maxSize tr < offset -> Key t offset w = (Panicked OffsetOutOfRange, w)) /\
  fst (Key t (maxSize tr) w) <> Panicked OffsetOutOfRange /\
  (maxSize tr + 1 < 2 ^ 64 ->
   Key t (maxSize tr + 1) w = (Panicked OffsetOutOfRange, w)) /\
  (offset <= maxSize tr -> key_of tr (view w (root tr)) offset <> None ->
   exists s w', Key t offset w = (Ok s, w')).
Proof.
  intros Htree Hoff.
  assert (forall o, o <= maxSize tr ->
                    fst (Key t o w) <> Panicked OffsetOutOfRange) as Hacc.
  { intros o Ho. destruct (Key_runs w t tr o Htree) as (w' & _ & Hr).
    unfold Key_result in Hr. destruct (Z.ltb_spec (maxSize tr) o); [lia|].
    destruct (key_of tr (view w (root tr)) o).
    - destruct Hr as (s & -> & _). done.
    - rewrite Hr. done. }
  assert (forall o, maxSize tr < o ->
                    Key t o w = (Panicked OffsetOutOfRange, w)) as Hrej.
  { intros o Ho. apply (Key_out_of_range w t tr); [apply Htree|done]. }
  split; [|split; [auto|split; [apply Hacc; lia|split; [intros; apply Hrej; lia|]]]].
  - split.
    + intros Hfail. destruct (Z.lt_ge_cases (maxSize tr) offset) as [|Hle]; [done|].
      exfalso. apply (Hacc offset); [lia|done].
    + intros Hlt. by rewrite Hrej.
  - intros Hle Hsome. destruct (Key_runs w t tr offset Htree) as (w' & _ & Hr).
    unfold Key_result in Hr. destruct (Z.ltb_spec (maxSize tr) offset); [lia|].
    destruct (key_of tr (view w (root tr)) offset); [|done].
    destruct Hr as (s & Hs & _). eauto.
Qed.

(** C8. [Key] is pure with respect to the tree.  Whatever the outcome of a
    call, the tree object and every byte array that existed before it are
    unchanged (the root key's bytes among them); the key it returns lies
    in an array allocated by the call; and another call with the same
    offset, right after or in any world where the tree and the bytes of
    its root key are the same, ends alike: the same bytes, or the same
    panic. *)
Theorem Key_pure w t tr offset r w' :
  tree_at w t tr -> Key t offset w = (r, w') ->
  preserves (dom (arrays w)) w w' /\
  tree_at w' t tr /\
  view w' (root tr) = view w (root tr) /\
  (forall s, r = Ok s -> slice_ok w' s /\ (base s ∉ dom (arrays w))) /\
  same_outcome (Key t offset w) (Key t offset w') /\
  (forall w2 t2, tree_at w2 t2 tr -> view w2 (root tr) = view w (root tr) ->
                 same_outcome (Key t offset w) (Key t2 offset w2)).
Proof.
  intros Htree Hrun.
  destruct (Key_runs w t tr offset Htree) as (w1 & Hpres & Hr).
  assert (w1 = w' /\ forall s, r = Ok s -> slice_ok w' s /\ (base s ∉ dom (arrays w)))
    as [-> Hfresh].
  { destruct (Key_result tr (view w (root tr)) offset).
    - destruct Hr as (s & Hs & _ & Hok & Hnew). rewrite Hs in Hrun.
      injection Hrun as <- <-. split; [done|]. by intros s' [= <-].
    - rewrite Hr in Hrun. injection Hrun as <- <-. split; [done|]. by intros s' [=]. }
  destruct (tree_at_preserved w w' t tr Htree Hpres) as [Htree' Hview].
  split; [done|]. split; [done|]. split; [done|]. split; [done|].
  split; [by apply Key_deterministic with (tr := tr)|].
  intros w2 t2 H2 Hv2. by apply Key_deterministic with (tr := tr).
Qed.

Lemma walk_zero tr offset i k : walk tr offset 0 i k = Some k.
Proof. reflexivity. Qed.

(** With a keyed hash of fixed digest size, every key below the root has
    that size. *)
Lemma walk_length tr offset n_bytes : fixed_size (alg tr) n_bytes ->
  forall n i k kf, walk tr offset (S n) i k = Some kf -> length kf = n_bytes.
Proof.
  intros Hsize n. induction n as [|n IH]; intros i k kf.
  - cbn. destruct (_ =? 0); [done|]. intros [= <-]. apply Hsize.
  - intros Hw. cbn [walk] in Hw. destruct (level_blockSize tr (depth tr - i) =? 0); [done|].
    by apply IH in Hw.
Qed.

Lemma depth_of_same_size B f :
  0 < B < 2 ^ 64 -> is_zero (Log one) -> nonzero_number (Log f) ->
  depth_of B B f = 0.
Proof.
  intros HB H1 Hf. unfold depth_of.
  rewrite div_self by (by apply of_uint64_finite).
  destruct (Log one) as [s1| | |]; try done.
  destruct (Log f) as [|s2| |s2 m e]; try done.
Qed.

(** C9. When the depth is zero [Key] hashes nothing: for every offset up
    to [maxSize] it calls the keyed hash zero times (the trace of hashing
    is not extended) and returns the bytes of the root key in an array of
    its own, so a key as long as the root key.  The depth is zero for every
    tree that [New] builds with [maxSize == blockSize], the block size not
    zero, on a platform whose [Log 1] is zero and whose [Log factor] is a
    number other than zero. *)
Theorem Key_depth_zero w t tr offset :
  tree_at w t tr -> offset <= maxSize tr ->
  depth tr = 0 \/
  (built_by_New tr /\ maxSize tr = blockSize tr /\ 0 < blockSize tr /\
   is_zero (Log one) /\ nonzero_number (Log (factor tr))) ->
  exists s w',
    Key t offset w = (Ok s, w') /\
    view w' s = view w (root tr) /\
    len s = len (root tr) /\
    (base s ∉ dom (arrays w)) /\
    trace w' = trace w.
Proof.
  intros Htree Hle Hcase.
  assert (depth tr = 0) as Hd.
  { destruct Hcase as [|(Hnew & Hsame & HB & H1 & Hf)]; [done|].
    rewrite Hnew, Hsame. apply depth_of_same_size; [|done|done].
    destruct Htree as (_ & _ & HB' & _). lia. }
  destruct (Key_spec w t tr offset Htree Hle) as (w' & _ & Htrace & Hres).
  unfold key_of in Hres. rewrite Hd in Hres, Htrace. cbn in Hres, Htrace.
  destruct Hres as (s & Hs & Hv & Hok & Hnew).
  exists s, w'. split; [done|]. split; [done|].
  split.
  { rewrite <- (view_length w' s), Hv by done. apply view_length, Htree. }
  split; [done|]. by rewrite Htrace, app_nil_r.
Qed.

(** C6, as the code has it.  The keys a tree derives all have one length:
    the digest size of the keyed hash when the depth is at least one, the
    length of the root key when the depth is zero. *)
Theorem Key_length w t tr offset n s w' :
  tree_at w t tr -> fixed_size (alg tr) n ->
  Key t offset w = (Ok s, w') ->
  len s = (if depth tr =? 0 then len (root tr) else n) /\
  length (view w' s) = len s.
Proof.
  intros Htree Hsize Hrun.
  destruct (Key_runs w t tr offset Htree) as (w1 & _ & Hr).
  unfold Key_result in Hr.
  destruct (Z.ltb_spec (maxSize tr) offset); [by rewrite Hr in Hrun|].
  destruct (key_of tr (view w (root tr)) offset) as [kf|] eqn:Hk;
    [|by rewrite Hr in Hrun].
  destruct Hr as (s1 & Hs1 & Hv & Hok & _). rewrite Hs1 in Hrun.
  injection Hrun as <- <-.
  pose proof (view_length w1 s1 Hok) as Hlen. split; [|done].
  rewrite <- Hlen, Hv. unfold key_of in Hk.
  destruct Htree as (_ & Hroot & _ & _ & Hd).
  destruct (Z.eqb_spec (depth tr) 0) as [Hz|Hnz].
  - rewrite Hz in Hk. injection Hk as <-. by apply view_length.
  - destruct (Z.to_nat (depth tr)) as [|m] eqn:Hm; [lia|].
    by apply (walk_length tr offset n Hsize m 0 (view w (root tr)) kf).
Qed.

End KeyProperties.

(** ** The test vectors *)

Lemma tree_of_at bs ms f :
  0 <= bs < 2 ^ 64 -> 0 <= ms < 2 ^ 64 ->
  tree_at (world_of (tree_of bs ms f)) 1 (tree_of bs ms f).
Proof.
  intros Hbs Hms. unfold tree_at, world_of, tree_of. cbn [trees root blockSize maxSize depth].
  split; [apply lookup_singleton_eq|].
  split; [exists yay; split; [apply lookup_singleton_eq|done]|].
  split; [done|]. split; [done|]. apply to_uint64_range.
Qed.

Section Vectors.
Context `{Platform}.

Lemma walk_ref tr offset n : forall i k,
  0 <= i -> i + Z.of_nat n = depth tr ->
  (forall level, 1 <= level <= depth tr -> 0 < trunc_blockSize tr level < 2 ^ 64) ->
  walk tr offset n i k = Some (ref_walk tr offset n i k).
Proof.
  induction n as [|n IH]; intros i k Hi Hn Hfit; [done|].
  cbn [walk ref_walk].
  assert (level_blockSize tr (depth tr - i) = trunc_blockSize tr (depth tr - i)) as ->.
  { unfold level_blockSize, wrap64. fold (trunc_blockSize tr (depth tr - i)).
    apply Z.mod_small. specialize (Hfit (depth tr - i)). lia. }
  destruct (Z.eqb_spec (trunc_blockSize tr (depth tr - i)) 0) as [Hz|_].
  { specialize (Hfit (depth tr - i)). lia. }
  apply IH; [lia|lia|done].
Qed.

(** C1, as the code has it.  For every tree and every offset up to
    [maxSize], when at every level the block size
    [uint64(factor^(level-1)) * blockSize] (the power computed by
    [math.Pow] and truncated to an integer) is positive and fits in 64
    bits, [Key] returns the key of the root-to-leaf walk that divides the
    offset by that block size: start from a copy of the root key; at step
    [i = 0 .. depth-1], with [level = depth - i], hash the 16-byte buffer
    made of [i] and of [y = offset / levelBlockSize], both little-endian,
    with a fresh keyed hash keyed with the current key; the digest is the
    next key. *)
Theorem Key_is_walk w t tr offset :
  tree_at w t tr -> offset <= maxSize tr ->
  (forall level, 1 <= level <= depth tr -> 0 < trunc_blockSize tr level < 2 ^ 64) ->
  exists s w',
    Key t offset w = (Ok s, w') /\
    view w' s = ref_walk tr offset (Z.to_nat (depth tr)) 0 (view w (root tr)).
Proof.
  intros Htree Hle Hfit.
  destruct (Key_spec w t tr offset Htree Hle) as (w' & _ & _ & Hres).
  assert (0 <= depth tr) by (destruct Htree as (_ & _ & _ & _ & ?); lia).
  unfold key_of in Hres. rewrite walk_ref in Hres by (done || lia).
  destruct Hres as (s & Hs & Hv & _). eauto.
Qed.

(** The depth of the test tree is one and its only level has block size
    two, on a platform whose [Log 8] is a finite number other than zero and
    whose [Pow 8 0] converts to one. *)
Lemma test_key_of offset :
  finite_nonzero (Log (of_uint64 8)) ->
  to_uint64 (Pow (of_uint64 8) (of_uint64 0)) = 1 ->
  forall key,
  key_of (MkTree key (HMAC md5_New) 2 16 (depth_of 2 16 (of_uint64 8)) (of_uint64 8))
         yay offset
  = Some (derive (HMAC md5_New) yay 0 (offset / 2)).
Proof.
  intros Hlog Hpow key. unfold key_of. cbn [depth]. rewrite depth_of_test by done.
  change (Z.to_nat 1) with 1%nat. cbn [walk depth].
  unfold level_blockSize. cbn [factor blockSize alg].
  change (1 - 0 - 1) with 0. rewrite Hpow. reflexivity.
Qed.

(** C2. The tree of [TestKey]: root key "yay", HMAC-MD5, block size 2,
    maximum size 16, factor 8.  On every platform whose [Log 8] is a finite
    number other than zero and whose [Pow 8 0] converts to one, [Key]
    returns for each offset 0..15 the key the test expects: offsets 0 and 1
    give [3a be 2f a3 ...], offsets 2 and 3 give [00 0e 19 5a ...], every
    even offset and the next share a key, and the eight keys are distinct
    and 16 bytes long. *)
Theorem TestKey_vectors w t key :
  finite_nonzero (Log (of_uint64 8)) ->
  to_uint64 (Pow (of_uint64 8) (of_uint64 0)) = 1 ->
  tree_at w t (MkTree key (HMAC md5_New) 2 16 (depth_of 2 16 (of_uint64 8)) (of_uint64 8)) ->
  view w key = yay ->
  (forall i, (i < 16)%nat ->
     exists s w', Key t (Z.of_nat i) w = (Ok s, w') /\
                  TestKey_keys !! i = Some (view w' s)) /\
  (forall j, (j < 8)%nat -> TestKey_keys !! (2 * j)%nat = TestKey_keys !! (2 * j + 1)%nat) /\
  NoDup (List.map (fun j => TestKey_keys !! (2 * j)%nat) (seq 0 8)) /\
  Forall (fun k => length k = 16%nat) TestKey_keys.
Proof.
  intros Hlog Hpow Htree Hview.
  split; [|split; [|split]].
  - intros i Hi.
    destruct (Key_spec w t _ (Z.of_nat i) Htree) as (w' & _ & _ & Hres);
      [cbn [maxSize]; lia|].
    cbn [root] in Hres. rewrite Hview, test_key_of in Hres by done.
    destruct Hres as (s & Hs & Hv & _). exists s, w'. split; [done|]. rewrite Hv.
    do 16 (destruct i as [|i]; [vm_compute; reflexivity|]). lia.
  - intros j Hj. do 8 (destruct j as [|j]; [reflexivity|]). lia.
  - apply (bool_decide_unpack _). by vm_compute.
  - repeat (apply Forall_cons; split; [reflexivity|]). apply Forall_nil. done.
Qed.
End Vectors.

Lemma md5_sum_length m : length (MD5.sum m) = 16%nat.
Proof.
  unfold MD5.sum. destruct (MD5.blocks _ _ _) as [a b c d].
  by rewrite !length_app, !le_bytes_length.
Qed.

Lemma HMAC_md5_fixed_size : fixed_size (HMAC md5_New) 16.
Proof.
  intros key data. unfold hash_digest, hash_write, HMAC, hmac_New.
  cbn [hfinal hdata hsize hblock md5_New]. apply md5_sum_length.
Qed.

Section Blocks.
Context `{Platform}.

(** Offsets of one leaf block derive the same key, in the same way, when
    every level's block size is a multiple of the leaf block size: so it is
    when no product [uint64(factor^(level-1)) * blockSize] exceeds 64 bits,
    and when the block size is a power of two. *)
Lemma Key_same_block w t tr o1 o2 :
  tree_at w t tr ->
  0 <= o1 <= maxSize tr -> 0 <= o2 <= maxSize tr ->
  o1 / blockSize tr = o2 / blockSize tr ->
  (forall level, 1 <= level <= depth tr -> (blockSize tr | level_blockSize tr level)) ->
  Key t o1 w = Key t o2 w.
Proof.
  intros (Ht & _ & HB & _ & Hd) H1 H2 Hblock Hmul.
  apply Key_same with (tr := tr); try done; try lia.
  intros level Hlevel. apply (same_block_same_index (blockSize tr)); try done; try lia.
  - unfold level_blockSize, wrap64. apply Z.mod_pos_bound. lia.
  - by apply Hmul.
Qed.

(** A level's block size is at least one when the product does not exceed
    64 bits. *)
Lemma level_blockSize_positive tr level :
  1 <= blockSize tr ->
  1 <= to_uint64 (Pow (factor tr) (of_uint64 (level - 1))) ->
  trunc_blockSize tr level < 2 ^ 64 ->
  1 <= level_blockSize tr level.
Proof.
  intros HB Hp Hfit. unfold level_blockSize, wrap64.
  fold (trunc_blockSize tr level). rewrite Z.mod_small; unfold trunc_blockSize in *; nia.
Qed.
End Blocks.

(** ** Evaluations on the portable platform *)

(** C1, counterexample.  Block size 2, maximum size 4, factor 1.5: the depth
    is 2.  At offset 2 the spec's walk divides, at the first step, by
    [2 * 1.5^1 = 3] and hashes the node index 0; [Key] divides by
    [uint64(1.5) * 2 = 2] and hashes the node index 1.  The keys differ. *)
Lemma Key_is_not_the_real_walk :
  depth (tree_of 2 4 f1_5) = 2 /\
  spec_node_index (tree_of 2 4 f1_5) 2 2 = 0 /\
  2 / level_blockSize (H:=portable) (tree_of 2 4 f1_5) 2 = 1 /\
  fst (client (H:=portable) yay (HMAC md5_New) 2 4 f1_5 2 empty_world)
  = Ok [123; 132; 103; 8; 115; 178; 165; 122; 57; 159; 32; 240; 66; 247; 61; 101] /\
  spec_key (tree_of 2 4 f1_5) yay 2
  = [85; 70; 34; 132; 164; 129; 150; 205; 48; 185; 17; 202; 122; 155; 54; 160] /\
  fst (client (H:=portable) yay (HMAC md5_New) 2 4 f1_5 2 empty_world)
  <> Ok (spec_key (tree_of 2 4 f1_5) yay 2).
Proof.
  assert (fst (client (H:=portable) yay (HMAC md5_New) 2 4 f1_5 2 empty_world)
          = Ok [123; 132; 103; 8; 115; 178; 165; 122; 57; 159; 32; 240; 66; 247; 61; 101])
    as Hcode by (vm_compute; reflexivity).
  assert (spec_key (tree_of 2 4 f1_5) yay 2
          = [85; 70; 34; 132; 164; 129; 150; 205; 48; 185; 17; 202; 122; 155; 54; 160])
    as Hspec by (vm_compute; reflexivity).
  split; [vm_compute; reflexivity|]. split; [vm_compute; reflexivity|].
  split; [vm_compute; reflexivity|]. split; [done|]. split; [done|].
  rewrite Hcode, Hspec. discriminate.
Qed.

(** C6, counterexample.  Block size 16, maximum size 16, factor 8: the depth
    is 0 and [Key(0)] returns the three bytes of the root key, where the
    digest size of HMAC-MD5 is 16. *)
Lemma Key_returns_the_root_key :
  depth (tree_of 16 16 (of_uint64 8)) = 0 /\
  fst (client (H:=portable) yay (HMAC md5_New) 16 16 (of_uint64 8) 0 empty_world)
  = Ok [0x79; 0x61; 0x79] /\
  hsize (HMAC md5_New yay) = 16%nat.
Proof. repeat split; vm_compute; reflexivity. Qed.

(** C10, at the failing input.  Block size [2^35], maximum size [2^64 - 1],
    factor 2: [float64(maxSize) / float64(blockSize)] is [2^29], the depth
    comes out as 30 (the quotient of the logarithms is a little over 29),
    and the block size of the first step is [uint64(2^29) * 2^35], zero in
    64 bits: [Key] panics with a division by zero, at every offset. *)
Theorem Key_divides_by_zero :
  F64.div (of_uint64 max_uint64) (of_uint64 (2 ^ 35)) = of_uint64 (2 ^ 29) /\
  depth (tree_of (2 ^ 35) max_uint64 two) = 30 /\
  to_uint64 (H:=portable) (Pow (Platform:=portable) two (of_uint64 29)) = 2 ^ 29 /\
  level_blockSize (H:=portable) (tree_of (2 ^ 35) max_uint64 two) 30 = 0 /\
  fst (client (H:=portable) yay (HMAC md5_New) (2 ^ 35) max_uint64 two 0 empty_world)
  = Panicked DivideByZero /\
  fst (client (H:=portable) yay (HMAC md5_New) (2 ^ 35) max_uint64 two max_uint64
              empty_world)
  = Panicked DivideByZero.
Proof. repeat split; vm_compute; reflexivity. Qed.

(** C3, at the failing input.  The same tree: block size [2^35], maximum
    size [2^64 - 1], factor 2, parameters that are valid.  The offset
    [maxSize] passes the bound check, which is inclusive, and [Key] then
    panics with a division by zero at the first step, where the block size
    is zero in 64 bits: [Key(maxSize)] does not succeed, neither on the
    tree as [New] builds it in a client nor in a world that holds nothing
    but the tree and its root key. *)
Theorem Key_maxSize_divides_by_zero :
  1 <= blockSize (tree_of (2 ^ 35) max_uint64 two)
    <= maxSize (tree_of (2 ^ 35) max_uint64 two) /\
  depth (tree_of (2 ^ 35) max_uint64 two) = 30 /\
  level_blockSize (H:=portable) (tree_of (2 ^ 35) max_uint64 two) 30 = 0 /\
  fst (Key (H:=portable) 1 (maxSize (tree_of (2 ^ 35) max_uint64 two))
           (world_of (tree_of (2 ^ 35) max_uint64 two)))
  = Panicked DivideByZero /\
  (forall s w',
     Key (H:=portable) 1 (maxSize (tree_of (2 ^ 35) max_uint64 two))
         (world_of (tree_of (2 ^ 35) max_uint64 two)) <> (Ok s, w')) /\
  fst (Key (H:=portable) 1 (maxSize (tree_of (2 ^ 35) max_uint64 two))
           (world_of (tree_of (2 ^ 35) max_uint64 two)))
  <> Panicked OffsetOutOfRange /\
  fst (client (H:=portable) yay (HMAC md5_New) (2 ^ 35) max_uint64 two max_uint64
              empty_world)
  = Panicked DivideByZero.
Proof.
  assert (fst (Key (H:=portable) 1 (maxSize (tree_of (2 ^ 35) max_uint64 two))
                   (world_of (tree_of (2 ^ 35) max_uint64 two)))
          = Panicked DivideByZero) as Hp by (vm_compute; reflexivity).
  split; [cbn [blockSize maxSize tree_of]; unfold max_uint64; lia|].
  split; [vm_compute; reflexivity|].
  split; [vm_compute; reflexivity|].
  split; [exact Hp|].
  split; [intros s w' Heq; rewrite Heq in Hp; discriminate Hp|].
  split; [rewrite Hp; intros Hq; discriminate Hq|].
  vm_compute. reflexivity.
Qed.

(** C5, at the failing input.  Block size 24, maximum size [2^64 - 1],
    factor 916015.5093913297: the depth comes out as 4 (the quotient of the
    logarithms is a little over 3), and the block size of the first step,
    [768614336404565632 * 24], exceeds 64 bits and wraps to 23552, which is
    not a multiple of 24.  Offsets 23551 and 23552 lie in the same leaf
    block, get the node indices 0 and 1 at the first step, and so
    different keys. *)
Theorem Key_same_block_overflow :
  depth (tree_of 24 max_uint64 f916015) = 4 /\
  to_uint64 (H:=portable) (Pow (Platform:=portable) f916015 (of_uint64 3))
  = 768614336404565632 /\
  level_blockSize (H:=portable) (tree_of 24 max_uint64 f916015) 4 = 23552 /\
  23551 / 24 = 23552 / 24 /\
  fst (client (H:=portable) yay (HMAC md5_New) 24 max_uint64 f916015 23551 empty_world)
  = Ok [73; 44; 26; 248; 254; 78; 205; 41; 88; 155; 58; 194; 227; 201; 9; 115] /\
  fst (client (H:=portable) yay (HMAC md5_New) 24 max_uint64 f916015 23552 empty_world)
  = Ok [112; 204; 77; 162; 29; 199; 97; 202; 187; 46; 84; 234; 173; 0; 240; 210].
Proof. repeat split; vm_compute; reflexivity. Qed.

(** The depth of an ordinary tree that the rounding of the logarithms makes
    one larger: block size 1, maximum size [2^21], factor 8. *)
Example depth_of_rounded_up : depth (tree_of 1 (2 ^ 21) (of_uint64 8)) = 8.
Proof. vm_compute. reflexivity. Qed.

(** ** The theorems at the tree of the test *)

Lemma test_tree_depth : depth test_tree = 1.
Proof. vm_compute. reflexivity. Qed.

Lemma test_tree_at : tree_at (world_of test_tree) 1 test_tree.
Proof. apply tree_of_at; lia. Qed.

(** [Key(0)] returns on the tree of the test. *)
Lemma test_tree_runs :
  exists s w', Key (H:=portable) 1 0 (world_of test_tree) = (Ok s, w').
Proof.
  destruct (Key_spec (H:=portable) (world_of test_tree) 1 test_tree 0 test_tree_at)
    as (w' & _ & _ & Hres); [done|].
  assert (key_of (H:=portable) test_tree (view (world_of test_tree) (root test_tree)) 0
          = Some (derive (HMAC md5_New) yay 0 0)) as Hk by (vm_compute; reflexivity).
  rewrite Hk in Hres. destruct Hres as (s & Hs & _). eauto.
Qed.

(** C1 at the tree of the test, offset 0. *)
Lemma Key_is_walk_witness :
  exists s w',
    Key (H:=portable) 1 0 (world_of test_tree) = (Ok s, w') /\
    view w' s = ref_walk (H:=portable) test_tree 0 (Z.to_nat (depth test_tree)) 0
                         (view (world_of test_tree) (root test_tree)).
Proof.
  apply (Key_is_walk (H:=portable)); [exact test_tree_at|done|].
  intros level Hl. rewrite test_tree_depth in Hl.
  assert (level = 1) as -> by lia. vm_compute. split; reflexivity.
Defined.

(** C2 on the portable platform, offset 0. *)
Lemma TestKey_vectors_witness :
  exists s w',
    Key (H:=portable) 1 0 (world_of test_tree) = (Ok s, w') /\
    TestKey_keys !! 0%nat = Some (view w' s).
Proof.
  destruct (TestKey_vectors (H:=portable) (world_of test_tree) 1 (Slice 1 0 3 3))
    as [Hkeys _].
  - vm_compute. exact I.
  - vm_compute. reflexivity.
  - exact test_tree_at.
  - vm_compute. reflexivity.
  - apply (Hkeys 0%nat). lia.
Defined.

(** X18 at the tree of the test: offset 17 is refused, offset 16 is not. *)
Lemma Key_offset_check_witness :
  Key (H:=portable) 1 17 (world_of test_tree)
  = (Panicked OffsetOutOfRange, world_of test_tree) /\
  fst (Key (H:=portable) 1 16 (world_of test_tree)) <> Panicked OffsetOutOfRange.
Proof.
  destruct (Key_offset_check (H:=portable) (world_of test_tree) 1 test_tree 17)
    as (_ & Hrej & Hacc & _); [exact test_tree_at|lia|].
  split; [apply Hrej; cbn; lia|exact Hacc].
Defined.

(** C6 at the tree of the test: 16 bytes. *)
Lemma Key_length_witness :
  exists s w',
    Key (H:=portable) 1 0 (world_of test_tree) = (Ok s, w') /\ len s = 16%nat.
Proof.
  destruct test_tree_runs as (s & w' & Hs). exists s, w'. split; [exact Hs|].
  destruct (Key_length (H:=portable) (world_of test_tree) 1 test_tree 0 16 s w')
    as [Hlen _]; [exact test_tree_at|exact HMAC_md5_fixed_size|exact Hs|].
  rewrite Hlen, test_tree_depth. reflexivity.
Defined.

(** C8 at the tree of the test: after [Key(0)] the tree and its root key
    are what they were. *)
Lemma Key_pure_witness :
  tree_at (snd (Key (H:=portable) 1 0 (world_of test_tree))) 1 test_tree /\
  view (snd (Key (H:=portable) 1 0 (world_of test_tree))) (root test_tree) = yay.
Proof.
  destruct (Key_pure (H:=portable) (world_of test_tree) 1 test_tree 0
                     (fst (Key (H:=portable) 1 0 (world_of test_tree)))
                     (snd (Key (H:=portable) 1 0 (world_of test_tree))))
    as (_ & Htree & Hview & _); [exact test_tree_at|apply surjective_pairing|].
  split; [exact Htree|]. rewrite Hview. reflexivity.
Defined.

(** C9 at a tree of one block: block size 16, maximum size 16. *)
Lemma Key_depth_zero_witness :
  exists s w',
    Key (H:=portable) 1 0 (world_of (tree_of 16 16 (of_uint64 8))) = (Ok s, w') /\
    view w' s = yay /\ len s = 3%nat.
Proof.
  destruct (Key_depth_zero (H:=portable) (world_of (tree_of 16 16 (of_uint64 8))) 1
                           (tree_of 16 16 (of_uint64 8)) 0)
    as (s & w' & Hs & Hv & Hlen & _).
  - apply tree_of_at; lia.
  - cbn. lia.
  - right. split; [reflexivity|]. split; [reflexivity|]. split; [cbn; lia|].
    split; vm_compute; exact I.
  - exists s, w'. split; [exact Hs|]. split; [rewrite Hv; reflexivity|exact Hlen].
Defined.

(** * Further properties of the package and of its tests *)

(** ** When [Key] panics *)

Section Panics.
Context `{Platform}.

(** The walk fails exactly when one of its levels has block size zero. *)
Lemma walk_None tr offset n : forall i k,
  walk tr offset n i k = None <->
  exists j, (j < n)%nat /\ level_blockSize tr (depth tr - (i + Z.of_nat j)) = 0.
Proof.
  induction n as [|n IH]; intros i k; cbn [walk].
  - split; [done|]. intros (j & Hj & _). lia.
  - destruct (Z.eqb_spec (level_blockSize tr (depth tr - i)) 0) as [Hz|Hnz].
    + split; [|done]. intros _. exists 0%nat. split; [lia|].
      by rewrite Z.add_0_r.
    + rewrite IH. split.
      * intros (j & Hj & Hz). exists (S j). split; [lia|].
        rewrite <- Hz. f_equal. lia.
      * intros (j & Hj & Hz). destruct j as [|j].
        { rewrite Z.add_0_r in Hz. done. }
        exists j. split; [lia|]. rewrite <- Hz. f_equal. lia.
Qed.

Lemma key_of_None tr rootKey offset :
  0 <= depth tr ->
  key_of tr rootKey offset = None <->
  exists level, 1 <= level <= depth tr /\ level_blockSize tr level = 0.
Proof.
  intros Hd. unfold key_of. rewrite walk_None. split.
  - intros (j & Hj & Hz). exists (depth tr - (0 + Z.of_nat j)). split; [lia|done].
  - intros (level & Hl & Hz). exists (Z.to_nat (depth tr - level)). split; [lia|].
    rewrite <- Hz. f_equal. lia.
Qed.

(** X1. [Key] panics in two ways only: with "offset greater than maximum
    size", exactly when the offset exceeds [maxSize]; and with the run-time
    error "integer divide by zero", exactly when the offset is in range and
    the block size [uint64(math.Pow(factor, level-1)) * blockSize] of some
    level from 1 to [depth] is zero in 64 bits.  No slice expression, index
    or pointer of [Key] ever fails. *)
Theorem Key_panics w t tr offset p :
  tree_at w t tr ->
  fst (Key t offset w) = Panicked p <->
  (p = OffsetOutOfRange /\ maxSize tr < offset) \/
  (p = DivideByZero /\ offset <= maxSize tr /\
   exists level, 1 <= level <= depth tr /\ level_blockSize tr level = 0).
Proof.
  intros Htree.
  destruct (Key_runs w t tr offset Htree) as (w' & _ & Hres).
  assert (0 <= depth tr) as Hd by (destruct Htree as (_ & _ & _ & _ & ?); lia).
  pose proof (key_of_None tr (view w (root tr)) offset Hd) as Hnone.
  unfold Key_result in Hres.
  destruct (Z.ltb_spec (maxSize tr) offset) as [Hlt|Hle].
  - rewrite Hres. cbn. split.
    + intros [= <-]. by left.
    + intros [[-> _]|(_ & Hle & _)]; [done|lia].
  - destruct (key_of tr (view w (root tr)) offset) as [kf|].
    + destruct Hres as (s & -> & _). cbn. split; [done|].
      intros [[_ Hlt]|(_ & _ & Hz)]; [lia|]. apply Hnone in Hz. done.
    + rewrite Hres. cbn. split.
      * intros [= <-]. right. split; [done|]. split; [done|]. by apply Hnone.
      * intros [[_ Hlt]|(-> & _)]; [lia|done].
Qed.

(** X2. A tree with block size zero and depth at least one: for every
    offset up to [maxSize], [Key] panics with "integer divide by zero" at
    the first division, before any hashing; the arrays that existed and the
    tree objects are unchanged. *)
Theorem Key_blockSize_zero w t tr offset :
  tree_at w t tr -> blockSize tr = 0 -> 1 <= depth tr -> offset <= maxSize tr ->
  exists w',
    Key t offset w = (Panicked DivideByZero, w') /\
    trace w' = trace w /\
    preserves (dom (arrays w)) w w'.
Proof.
  intros Htree Hb Hd Hle.
  destruct (Key_spec w t tr offset Htree Hle) as (w' & Hpres & Htr & Hres).
  unfold key_of in Hres.
  destruct (Z.to_nat (depth tr)) as [|n] eqn:En; [lia|].
  cbn [walk walk_trace] in Hres, Htr.
  assert (level_blockSize tr (depth tr - 0) = 0) as Hz.
  { unfold level_blockSize. rewrite Hb, Z.mul_0_r. reflexivity. }
  rewrite Hz in Hres, Htr. cbn in Hres, Htr. rewrite app_nil_r in Htr.
  exists w'. done.
Qed.

End Panics.

(** ** The hashing that [Key] does *)

Lemma rounds_length l : length (rounds l) = (3 * length l)%nat.
Proof. induction l as [|[[k b] d] l IH]; [done|]. cbn [rounds length]. lia. Qed.

Section Hashing.
Context `{Platform}.

Lemma walk_rounds tr offset n : forall i k kf,
  walk tr offset n i k = Some kf ->
  exists l, length l = n /\ walk_trace tr offset n i k = rounds l /\ chained k l kf.
Proof.
  induction n as [|n IH]; intros i k kf; cbn [walk walk_trace].
  - intros [= <-]. by exists [].
  - destruct (level_blockSize tr (depth tr - i) =? 0); [done|].
    intros Hw. destruct (IH _ _ _ Hw) as (l & Hlen & Htr & Hch).
    set (y := offset / level_blockSize tr (depth tr - i)) in *.
    exists ((k, index_buffer i y, derive (alg tr) k i y) :: l).
    cbn [length rounds chained]. rewrite Hlen, Htr.
    split; [done|]. split; [done|]. split; [done|]. split; [|done].
    unfold index_buffer. by rewrite length_app, !le_bytes_length.
Qed.

(** X3. A call of [Key] that returns has done exactly [depth] rounds of
    hashing, one after the other: in each round it calls the keyed hash
    once, writes one buffer of 16 bytes to the hash object and takes one
    digest from it.  The first round is keyed with the bytes of the root
    key, every later round with the digest of the round before, and the key
    returned is the digest of the last round. *)
Theorem Key_hashing_rounds w t tr offset s w' :
  tree_at w t tr -> Key t offset w = (Ok s, w') ->
  exists l,
    length l = Z.to_nat (depth tr) /\
    trace w' = trace w ++ rounds l /\
    chained (view w (root tr)) l (view w' s).
Proof.
  intros Htree HKey.
  destruct (Z.ltb_spec (maxSize tr) offset) as [Hlt|Hle].
  { rewrite (Key_out_of_range w t tr) in HKey; [done|apply Htree|done]. }
  destruct (Key_spec w t tr offset Htree Hle) as (w1 & _ & Htr & Hres).
  unfold key_of in Hres.
  destruct (walk tr offset (Z.to_nat (depth tr)) 0 (view w (root tr))) as [kf|] eqn:Hw.
  - destruct Hres as (s1 & HKey1 & Hv & _). rewrite HKey in HKey1.
    injection HKey1 as <- <-.
    destruct (walk_rounds _ _ _ _ _ _ Hw) as (l & Hlen & Hl & Hch).
    exists l. rewrite Htr, Hl, Hv. done.
  - rewrite HKey in Hres. done.
Qed.

End Hashing.

(** ** The arrays that [Key] allocates *)

Lemma n_arrays_add_event e w : n_arrays (add_event e w) = n_arrays w.
Proof. done. Qed.

Lemma n_arrays_upd f l w : n_arrays (upd_array f l w) = n_arrays w.
Proof. unfold n_arrays, upd_array. cbn. by rewrite dom_alter_L. Qed.

Lemma n_arrays_fresh a w :
  n_arrays (add_array (fresh (dom (arrays w))) a w) = S (n_arrays w).
Proof.
  unfold n_arrays, add_array. cbn. rewrite dom_insert_L.
  rewrite size_union by (apply disjoint_singleton_l, is_fresh).
  by rewrite size_singleton.
Qed.

Section Allocations.
Context `{Platform}.

(** [append] writes in place when the capacity allows, and allocates one
    array, of sufficient capacity, otherwise. *)
Lemma append_allocs b (d : bytes) w :
  exists k' w',
    append b d w = (Ok k', w') /\ trees w' = trees w /\
    (((len b + length d <= cap b)%nat /\ n_arrays w' = n_arrays w /\ cap k' = cap b) \/
     ((cap b < len b + length d)%nat /\ n_arrays w' = S (n_arrays w) /\
      (len b + length d <= cap k')%nat)).
Proof.
  unfold append.
  destruct (Nat.leb_spec (len b + length d) (cap b)) as [Hfit|Hbig].
  - unfold bind, store_at, ret. eexists _, _. split; [reflexivity|]. split; [done|].
    left. split; [done|]. split; [apply n_arrays_upd|done].
  - unfold bind, load, alloc_array, ret. eexists _, _. split; [reflexivity|].
    split; [done|]. right. split; [done|]. split; [apply n_arrays_fresh|].
    cbn. lia.
Qed.

Lemma Key_body_allocs w t tr offset buf k i n :
  trees w !! t = Some tr ->
  0 <= i < depth tr -> depth tr < 2 ^ 64 -> len buf = 16%nat ->
  fixed_size (alg tr) n ->
  Key_body t offset buf k i w = (Panicked DivideByZero, w) \/
  exists k' w',
    Key_body t offset buf k i w = (Ok k', w') /\ trees w' = trees w /\
    (((n <= cap k)%nat /\ n_arrays w' = n_arrays w /\ cap k' = cap k) \/
     ((cap k < n)%nat /\ n_arrays w' = S (n_arrays w) /\ (n <= cap k')%nat)).
Proof.
  intros Ht Hi Hd Hlen Hfix.
  rewrite (Key_body_eq w t tr) by done. cbv zeta.
  destruct (level_blockSize tr (depth tr - i) =? 0); [by left|right].
  match goal with |- context [append ?b ?d ?w0] =>
    destruct (append_allocs b d w0) as (k' & w' & Happ & Htrees & Hcase);
    assert (length d = n) as Hn by apply Hfix;
    assert (n_arrays w0 = n_arrays w) as Hw0
      by (by rewrite !n_arrays_add_event, !n_arrays_upd)
  end.
  exists k', w'. split; [done|]. split; [done|].
  rewrite Hn, Hw0 in Hcase. cbn [len cap Nat.add] in Hcase. done.
Qed.

(** The loop allocates at most once: when the first digest does not fit in
    the working key's array. *)
Lemma Key_loop_allocs m : forall w t tr offset buf k i n,
  trees w !! t = Some tr ->
  0 <= i -> i + Z.of_nat m = depth tr -> depth tr < 2 ^ 64 -> len buf = 16%nat ->
  fixed_size (alg tr) n ->
  exists r w',
    Key_loop m t offset buf k i w = (r, w') /\
    (n_arrays w' <= S (n_arrays w))%nat /\
    ((n <= cap k)%nat -> n_arrays w' = n_arrays w) /\
    (forall s, r = Ok s ->
       n_arrays w' = if (m =? 0)%nat || (n <=? cap k)%nat then n_arrays w
                     else S (n_arrays w)).
Proof.
  induction m as [|m IH]; intros w t tr offset buf k i n Ht Hi Hm Hd Hlen Hfix.
  - eexists _, _. split; [reflexivity|]. split; [lia|]. done.
  - cbn [Key_loop]. unfold bind.
    destruct (Key_body_allocs w t tr offset buf k i n) as [->|(k' & w1 & -> & Htrees & Hcase)];
      try done; try lia.
    { eexists _, _. split; [reflexivity|]. split; [lia|]. done. }
    assert (trees w1 !! t = Some tr) as Ht1 by (by rewrite Htrees).
    assert (wrap64 (i + 1) = i + 1) as -> by (apply Z.mod_small; lia).
    destruct (IH w1 t tr offset buf k' (i + 1) n Ht1) as (r & w' & -> & Hle & Hsame & Hok);
      try done; try lia.
    exists r, w'. split; [done|].
    assert ((n <= cap k')%nat) as Hk' by (destruct Hcase as [(? & _ & ->)|(_ & _ & ?)]; lia).
    specialize (Hsame Hk').
    destruct Hcase as [(Hfit & Hn1 & _)|(Hbig & Hn1 & _)].
    + split; [lia|]. split; [lia|]. intros s _.
      destruct (Nat.leb_spec n (cap k)); [|lia]. cbn. lia.
    + split; [lia|]. split; [lia|]. intros s _.
      destruct (Nat.leb_spec n (cap k)); [lia|]. cbn. lia.
Qed.

(** X4. The byte arrays a call of [Key] allocates, over a keyed hash whose
    digests have [n] bytes: none when the offset is refused; never more
    than three; and, when the call returns, exactly two (the 16-byte buffer
    and the working key) if the depth is zero or a digest fits in an array
    as long as the root key, exactly three otherwise: [h.Sum(k[:0])] then
    grows the working key once, in the first round, and every later round
    writes its digest in place.  (The arrays inside the hash objects are
    not counted.) *)
Theorem Key_allocations w t tr offset n r w' :
  trees w !! t = Some tr -> 0 <= depth tr < 2 ^ 64 ->
  fixed_size (alg tr) n ->
  Key t offset w = (r, w') ->
  (maxSize tr < offset -> n_arrays w' = n_arrays w) /\
  (n_arrays w' <= n_arrays w + 3)%nat /\
  (forall s, r = Ok s ->
     n_arrays w' = if (depth tr =? 0) || (n <=? len (root tr))%nat
                   then (n_arrays w + 2)%nat else (n_arrays w + 3)%nat).
Proof.
  intros Ht Hd Hfix HKey.
  destruct (Z.ltb_spec (maxSize tr) offset) as [Hlt|Hle].
  { rewrite (Key_out_of_range w t tr) in HKey by done. injection HKey as <- <-.
    split; [done|]. split; [lia|]. done. }
  split; [lia|].
  rewrite (Key_eq w t tr) in HKey by done. cbv zeta in HKey.
  match type of HKey with Key_loop _ _ _ ?buf ?k _ ?w3 = _ =>
    assert (n_arrays w3 = (n_arrays w + 2)%nat) as Hw3
      by (rewrite n_arrays_upd, !n_arrays_fresh; lia);
    destruct (Key_loop_allocs (Z.to_nat (depth tr)) w3 t tr offset buf k 0 n)
      as (r1 & w1 & HK & Hle1 & _ & Hok); try done; try lia
  end.
  rewrite HKey in HK. injection HK as <- <-. rewrite Hw3 in Hle1.
  split; [lia|]. intros s Hs. rewrite (Hok s Hs). cbn [cap]. rewrite Hw3.
  assert ((Z.to_nat (depth tr) =? 0)%nat = (depth tr =? 0)) as ->.
  { destruct (Z.eqb_spec (depth tr) 0) as [->|]; [done|].
    apply Nat.eqb_neq. lia. }
  destruct ((depth tr =? 0) || (n <=? len (root tr))%nat); lia.
Qed.

End Allocations.

(** ** Calls of [New] and [Key], one after the other *)

Section Composition.
Context `{Platform}.

(** X5. Calls of [Key] do not interfere: after a call on a tree, at any
    offset and whatever its outcome, every tree of the heap (the same one
    or another) is what it was, with the same root key bytes, and a call on
    it at any offset ends as it would have ended before: with the same key
    bytes, or the same panic. *)
Theorem Key_calls_independent w t1 tr1 o1 t2 tr2 o2 r w' :
  tree_at w t1 tr1 -> tree_at w t2 tr2 -> Key t1 o1 w = (r, w') ->
  tree_at w' t2 tr2 /\
  view w' (root tr2) = view w (root tr2) /\
  same_outcome (Key t2 o2 w) (Key t2 o2 w').
Proof.
  intros H1 H2 HKey.
  destruct (Key_runs w t1 tr1 o1 H1) as (w1 & Hpres & Hres).
  assert (w1 = w') as ->.
  { destruct (Key_result tr1 (view w (root tr1)) o1).
    - destruct Hres as (s & Hs & _). congruence.
    - congruence. }
  destruct (tree_at_preserved w w' t2 tr2 H2 Hpres) as [H2' Hv].
  split; [done|]. split; [done|].
  by apply (Key_deterministic w w' t2 t2 tr2).
Qed.

(** X6. [New] keeps the caller's key slice, not a copy of its bytes: the
    tree shares the array.  When the caller overwrites the bytes of the
    slice with [p] after [New] has returned, [Key] derives its keys from
    [p]: it ends as the derivation from the root key [p] does. *)
Theorem New_shares_the_root_key key a bs ms f w p offset :
  slice_ok w key -> 0 <= bs < 2 ^ 64 -> 0 <= ms < 2 ^ 64 ->
  length p = len key ->
  let t := fresh (dom (trees w)) in
  let tr := MkTree key a bs ms (depth_of bs ms f) f in
  let w1 := snd (New key a bs ms f w) in
  let w2 := snd (store_at (base key) (off key) p w1) in
  fst (New key a bs ms f w) = Ok t /\
  view w1 key = view w key /\
  view w2 key = p /\
  match Key_result tr p offset with
  | Ok kf => exists s w3, Key t offset w2 = (Ok s, w3) /\ view w3 s = kf
  | Panicked q => fst (Key t offset w2) = Panicked q
  end.
Proof.
  intros Hkey Hbs Hms Hp t tr w1 w2.
  unfold w2, w1. rewrite New_spec. cbn [fst snd store_at].
  split; [done|]. split; [done|].
  set (w1' := World _ _ _).
  destruct Hkey as (arr & Harr & Hcap & Hlen).
  assert (arrays w1' !! base key = Some arr) as Harr1 by done.
  assert (view (upd_array (splice (off key) p) (base key) w1') key = p) as Hv.
  { destruct key as [l o n c]. cbn in *. subst n.
    apply (view_store w1' l o p c arr Harr1). lia. }
  split; [done|].
  assert (tree_at (upd_array (splice (off key) p) (base key) w1') t tr) as Htree.
  { split.
    { unfold upd_array, w1'. cbn. by rewrite lookup_insert_eq. }
    split.
    { apply slice_ok_upd.
      - intros a0 Ha0. rewrite Harr1 in Ha0. injection Ha0 as <-.
        apply splice_length. lia.
      - exists arr. done. }
    unfold tr. cbn. split; [done|]. split; [done|]. apply to_uint64_range. }
  destruct (Key_runs _ t tr offset Htree) as (w3 & _ & Hres).
  change (root tr) with key in Hres. rewrite Hv in Hres.
  destruct (Key_result tr p offset).
  - destruct Hres as (s & HK & Hvs & _). by exists s, w3.
  - by rewrite Hres.
Qed.

(** X7. [New] leaves the trees that exist alone: the tree it returns is a
    new object, and every other tree is what it was and derives the keys it
    derived before. *)
Theorem New_leaves_other_trees key a bs ms f w t0 tr0 offset :
  tree_at w t0 tr0 ->
  let t := fresh (dom (trees w)) in
  let w1 := snd (New key a bs ms f w) in
  fst (New key a bs ms f w) = Ok t /\
  t <> t0 /\
  tree_at w1 t0 tr0 /\
  view w1 (root tr0) = view w (root tr0) /\
  same_outcome (Key t0 offset w) (Key t0 offset w1).
Proof.
  intros Htree t w1. unfold w1. rewrite New_spec. cbn [fst snd].
  split; [done|].
  assert (t <> t0) as Hne.
  { intros Heq. destruct Htree as (Ht0 & _). rewrite <- Heq in Ht0.
    unfold t in Ht0. by rewrite fresh_tree_unused in Ht0. }
  split; [done|].
  set (w' := World _ _ _).
  assert (tree_at w' t0 tr0) as Htree'.
  { destruct Htree as (Ht0 & Hroot & Hrest). split.
    - unfold w'. cbn. by rewrite lookup_insert_ne.
    - split; [|done]. destruct Hroot as (arr & Harr & Hr). by exists arr. }
  split; [done|]. split; [done|].
  by apply (Key_deterministic w w' t0 t0 tr0).
Qed.

End Composition.

(** ** Offsets of one block, and the walk in exact arithmetic *)

Section Exact.
Context `{Platform}.

(** X8. Offsets of one leaf block derive the same key, in the same way,
    in every tree in which no level's product
    [uint64(math.Pow(factor, level-1)) * blockSize] exceeds 64 bits. *)
Theorem Key_same_block_no_overflow w t tr o1 o2 :
  tree_at w t tr ->
  0 <= o1 <= maxSize tr -> 0 <= o2 <= maxSize tr ->
  o1 / blockSize tr = o2 / blockSize tr ->
  (forall level, 1 <= level <= depth tr -> trunc_blockSize tr level < 2 ^ 64) ->
  Key t o1 w = Key t o2 w.
Proof.
  intros Htree Ho1 Ho2 Hsame Hfit.
  apply (Key_same_block w t tr); try done.
  intros level Hl. specialize (Hfit level Hl).
  unfold trunc_blockSize in Hfit. unfold level_blockSize, wrap64.
  pose proof (to_uint64_range (Pow (factor tr) (of_uint64 (level - 1)))) as Hr.
  destruct Htree as (_ & _ & HB & _).
  rewrite Z.mod_small by nia.
  apply Z.divide_factor_r.
Qed.

Lemma spec_node_index_exact tr offset level F :
  Qeq (real_of (factor tr)) (inject_Z F) -> 1 <= level ->
  to_uint64 (Pow (factor tr) (of_uint64 (level - 1))) = F ^ (level - 1) ->
  spec_node_index tr offset level = offset / trunc_blockSize tr level.
Proof.
  intros HF Hl Hpow. unfold spec_node_index, spec_levelBlockSize, trunc_blockSize.
  rewrite Hpow, HF.
  rewrite <- Zpower_Qpower by lia.
  rewrite <- inject_Z_mult.
  rewrite <- Zdiv_Qdiv. f_equal. lia.
Qed.

Lemma ref_walk_spec tr offset F n : forall i k,
  Qeq (real_of (factor tr)) (inject_Z F) ->
  0 <= i -> i + Z.of_nat n = depth tr ->
  (forall level, 1 <= level <= depth tr ->
     to_uint64 (Pow (factor tr) (of_uint64 (level - 1))) = F ^ (level - 1)) ->
  ref_walk tr offset n i k = spec_walk tr offset n i k.
Proof.
  induction n as [|n IH]; intros i k HF Hi Hn Hpow; [done|].
  cbn [ref_walk spec_walk].
  rewrite (spec_node_index_exact tr offset (depth tr - i) F)
    by (done || lia || (apply Hpow; lia)).
  apply IH; done || lia.
Qed.

(** X9. When the branching factor is a whole number [F], [math.Pow]
    returns its powers [F^(level-1)] exactly at every level of the tree,
    and no level's block size [F^(level-1) * blockSize] is zero or exceeds
    64 bits, [Key] returns, for every offset up to [maxSize], the key of
    the walk in exact arithmetic: at step [i], with [level = depth - i],
    the node index is [floor (offset / (blockSize * factor^(level-1)))]. *)
Theorem Key_is_the_real_walk w t tr offset F :
  tree_at w t tr -> offset <= maxSize tr ->
  Qeq (real_of (factor tr)) (inject_Z F) ->
  (forall level, 1 <= level <= depth tr ->
     to_uint64 (Pow (factor tr) (of_uint64 (level - 1))) = F ^ (level - 1) /\
     0 < F ^ (level - 1) * blockSize tr < 2 ^ 64) ->
  exists s w',
    Key t offset w = (Ok s, w') /\
    view w' s = spec_key tr (view w (root tr)) offset.
Proof.
  intros Htree Hle HF Hlev.
  destruct (Key_spec w t tr offset Htree Hle) as (w' & _ & _ & Hres).
  assert (0 <= depth tr) as Hd by (destruct Htree as (_ & _ & _ & _ & ?); lia).
  unfold key_of in Hres.
  rewrite (walk_ref tr offset) in Hres; [|lia|lia|].
  - destruct Hres as (s & HK & Hv & _). exists s, w'. split; [done|].
    rewrite Hv. unfold spec_key. apply (ref_walk_spec tr offset F); try done; try lia.
    intros level Hl. by apply Hlev.
  - intros level Hl. unfold trunc_blockSize.
    destruct (Hlev level Hl) as [-> Hr]. done.
Qed.

(** X13. A tree whose size ratio [float64(maxSize) / float64(blockSize)]
    is the branching factor itself has depth one, on every platform whose
    logarithm of the factor is a finite number other than zero: whatever
    the rounding of [math.Log], a number divided by itself is one. *)
Theorem depth_one bs ms f :
  F64.div (of_uint64 ms) (of_uint64 bs) = f -> finite_nonzero (Log f) ->
  depth_of bs ms f = 1.
Proof.
  intros Hratio Hlog. unfold depth_of. rewrite Hratio, div_self by done. reflexivity.
Qed.

(** X17. When [math.Log(factor)] is zero, as for a factor of one, and the
    logarithm of the size ratio is a finite number other than zero, the
    quotient of the logarithms is an infinity, and the depth that [New]
    stores is the conversion of that infinity to [uint64]: a value that Go
    leaves to the implementation. *)
Theorem depth_of_zero_logarithm bs ms f :
  is_zero (Log f) ->
  finite_nonzero (Log (F64.div (of_uint64 ms) (of_uint64 bs))) ->
  exists s, depth_of bs ms f = wrap64 (uint64_out_of_range (S754_infinity s)).
Proof.
  intros Hf Hr. unfold depth_of.
  destruct (Log f) as [s2| | |]; try done.
  destruct (Log (F64.div (of_uint64 ms) (of_uint64 bs))) as [| | |s1 m e]; try done.
  exists (xorb s1 s2). reflexivity.
Qed.

End Exact.

(** ** The index buffer *)

Lemma le_word_le_bytes n : forall v,
  le_word (le_bytes n v) = Z.land v (Z.ones (8 * Z.of_nat n)).
Proof.
  induction n as [|n IH]; intros v.
  - cbn. by rewrite Z.land_0_r.
  - change (le_bytes (S n) v) with (Z.land v 255 :: le_bytes n (Z.shiftr v 8)).
    cbn [le_word]. rewrite IH. apply Z.bits_inj'. intros m Hm.
    rewrite Z.lor_spec, !Z.land_spec, Z.shiftl_spec, Z.land_spec by done.
    change 255 with (Z.ones 8).
    rewrite (Z.testbit_ones_nonneg 8 m) by lia.
    rewrite (Z.testbit_ones_nonneg (8 * Z.of_nat (S n)) m) by lia.
    destruct (Z.ltb_spec m 8) as [Hlt|Hge].
    + assert (Z.testbit (Z.shiftr v 8) (m - 8) = false) as ->
        by (apply Z.testbit_neg_r; lia).
      destruct (Z.ltb_spec m (8 * Z.of_nat (S n))); [|lia].
      by rewrite andb_true_r, andb_false_l, orb_false_r.
    + rewrite andb_false_r, orb_false_l.
      rewrite Z.shiftr_spec by lia.
      rewrite (Z.testbit_ones_nonneg (8 * Z.of_nat n) (m - 8)) by lia.
      replace (m - 8 + 8) with m by lia.
      f_equal. destruct (Z.ltb_spec (m - 8) (8 * Z.of_nat n)),
                        (Z.ltb_spec m (8 * Z.of_nat (S n))); lia || done.
Qed.

Lemma le_word_le_bytes_8 v : 0 <= v < 2 ^ 64 -> le_word (le_bytes 8 v) = v.
Proof.
  intros Hv. rewrite le_word_le_bytes.
  change (8 * Z.of_nat 8) with 64. rewrite Z.land_ones by lia.
  by apply Z.mod_small.
Qed.

Lemma index_buffer_halves i y :
  take 8 (index_buffer i y) = le_bytes 8 i /\ drop 8 (index_buffer i y) = le_bytes 8 y.
Proof.
  unfold index_buffer. split.
  - apply take_app_length'. by rewrite le_bytes_length.
  - apply drop_app_length'. by rewrite le_bytes_length.
Qed.

(** X10. The two stores of a round,
    [binary.LittleEndian.PutUint64(buf, i)] and
    [binary.LittleEndian.PutUint64(buf[8:], y)] on the 16-byte buffer,
    never fail and lose nothing: the buffer then holds 16 bytes whose first
    half decodes to the step counter and whose second half decodes to the
    node index.  So two rounds hash the same buffer only when they agree on
    both. *)
Theorem PutUint64_round_trip w buf i y :
  slice_ok w buf -> len buf = 16%nat ->
  0 <= i < 2 ^ 64 -> 0 <= y < 2 ^ 64 ->
  exists w',
    (PutUint64 buf i;;; let* buf8 := slice_from buf 8 in PutUint64 buf8 y) w
    = (Ok tt, w') /\
    length (view w' buf) = 16%nat /\
    le_word (take 8 (view w' buf)) = i /\
    le_word (drop 8 (view w' buf)) = y /\
    forall i' y', 0 <= i' < 2 ^ 64 -> 0 <= y' < 2 ^ 64 ->
                  view w' buf = index_buffer i' y' -> i' = i /\ y' = y.
Proof.
  intros (ba & Hba & Hcap & Hlen16) Hlen Hi Hy.
  unfold PutUint64, slice_from, bind, store_at, ret. rewrite Hlen.
  cbn [Nat.ltb Nat.leb len base off Nat.sub].
  eexists. split; [reflexivity|].
  assert (view (upd_array (splice (off buf + 8) (le_bytes 8 y)) (base buf)
                  (upd_array (splice (off buf) (le_bytes 8 i)) (base buf) w)) buf
          = index_buffer i y) as Hv.
  { destruct buf as [lb ob nb cb]. cbn in *. subst nb.
    pose proof (view_store2 w lb ob (le_bytes 8 i) (le_bytes 8 y) ba Hba) as Hv.
    rewrite !le_bytes_length in Hv. cbn [Nat.add] in Hv.
    unfold view in *. cbn [len base off] in *. apply Hv. lia. }
  rewrite Hv. destruct (index_buffer_halves i y) as [-> ->].
  rewrite !le_word_le_bytes_8 by done.
  split.
  { unfold index_buffer. by rewrite length_app, !le_bytes_length. }
  split; [done|]. split; [done|].
  intros i' y' Hi' Hy' Heq.
  destruct (index_buffer_halves i y) as [Ht Hd].
  destruct (index_buffer_halves i' y') as [Ht' Hd'].
  rewrite Heq in Ht, Hd. rewrite Ht in Ht'. rewrite Hd in Hd'.
  split.
  - rewrite <- (le_word_le_bytes_8 i'), <- (le_word_le_bytes_8 i) by done. congruence.
  - rewrite <- (le_word_le_bytes_8 y'), <- (le_word_le_bytes_8 y) by done. congruence.
Qed.

(** ** Root keys that [HMAC] does not tell apart *)

(** [hmac.New] pads a key with zeros to the block size of the hash. *)
Lemma hmac_New_zero_padded (h : Hash) (key : bytes) (z : nat) :
  (length key + z <= hblock h)%nat ->
  hmac_New h (key ++ replicate z 0) = hmac_New h key.
Proof.
  intros Hfit. unfold hmac_New.
  rewrite length_app, length_replicate.
  destruct (Nat.ltb_spec (hblock h) (length key + z)) as [|_]; [lia|].
  destruct (Nat.ltb_spec (hblock h) (length key)) as [|_]; [lia|].
  rewrite length_app, length_replicate, <- app_assoc, <- replicate_add.
  replace (z + (hblock h - (length key + z)))%nat with (hblock h - length key)%nat by lia.
  reflexivity.
Qed.

(** [hmac.New] replaces a key longer than the block size by its digest. *)
Lemma hmac_New_long_key (h : Hash) (key : bytes) :
  (hblock h < length key)%nat -> (length (hfinal h key) <= hblock h)%nat ->
  hmac_New h key = hmac_New h (hfinal h key).
Proof.
  intros Hlong Hfit. unfold hmac_New.
  destruct (Nat.ltb_spec (hblock h) (length key)) as [_|]; [|lia].
  destruct (Nat.ltb_spec (hblock h) (length (hfinal h key))) as [|_]; [lia|].
  reflexivity.
Qed.

Section RootKeys.
Context `{Platform}.

Lemma walk_ext tr1 tr2 offset n : forall i k,
  alg tr1 = alg tr2 -> blockSize tr1 = blockSize tr2 -> depth tr1 = depth tr2 ->
  factor tr1 = factor tr2 ->
  walk tr1 offset n i k = walk tr2 offset n i k.
Proof.
  induction n as [|n IH]; intros i k Ha Hb Hd Hf; [done|].
  cbn [walk]. unfold level_blockSize. rewrite Ha, Hb, Hd, Hf.
  destruct (_ =? 0); [done|]. apply IH; done.
Qed.

(** Two trees that differ in the root key only, with root keys that the
    keyed hash does not tell apart, derive the same keys once the depth is
    at least one. *)
Lemma Key_same_keyed_root w1 t1 w2 t2 tr1 tr2 offset :
  tree_at w1 t1 tr1 -> tree_at w2 t2 tr2 ->
  alg tr1 = alg tr2 -> blockSize tr1 = blockSize tr2 -> maxSize tr1 = maxSize tr2 ->
  depth tr1 = depth tr2 -> factor tr1 = factor tr2 ->
  alg tr1 (view w1 (root tr1)) = alg tr1 (view w2 (root tr2)) ->
  1 <= depth tr1 ->
  same_outcome (Key t1 offset w1) (Key t2 offset w2).
Proof.
  intros H1 H2 Ha Hb Hm Hd Hf Hk Hd1.
  destruct (Key_runs w1 t1 tr1 offset H1) as (w1' & _ & Hr1).
  destruct (Key_runs w2 t2 tr2 offset H2) as (w2' & _ & Hr2).
  assert (Key_result tr2 (view w2 (root tr2)) offset
          = Key_result tr1 (view w1 (root tr1)) offset) as Heq.
  { unfold Key_result, key_of. rewrite <- Hm, <- Hd.
    destruct (maxSize tr1 <? offset); [done|].
    rewrite <- (walk_ext tr1 tr2) by done.
    destruct (Z.to_nat (depth tr1)) as [|n] eqn:En; [lia|].
    cbn [walk]. destruct (_ =? 0); [done|].
    unfold derive. by rewrite Hk. }
  rewrite Heq in Hr2. unfold same_outcome.
  destruct (Key_result tr1 (view w1 (root tr1)) offset) as [kf|p].
  - destruct Hr1 as (s1 & -> & Hv1 & _), Hr2 as (s2 & -> & Hv2 & _). cbn. congruence.
  - by rewrite Hr1, Hr2.
Qed.

(** X11. Over [HMAC(h)], a root key and the same key followed by zero
    bytes, both within the block size of [h], give trees that derive the
    same keys at every offset, once the depth is at least one: [hmac.New]
    pads the key with zeros. *)
Theorem Key_HMAC_zero_padded_root h w1 t1 w2 t2 r1 r2 B M d f z offset :
  tree_at w1 t1 (MkTree r1 (HMAC h) B M d f) ->
  tree_at w2 t2 (MkTree r2 (HMAC h) B M d f) ->
  view w2 r2 = view w1 r1 ++ replicate z 0 ->
  (len r2 <= hblock h)%nat ->
  1 <= d ->
  same_outcome (Key t1 offset w1) (Key t2 offset w2).
Proof.
  intros H1 H2 Hv Hfit Hd.
  apply (Key_same_keyed_root w1 t1 w2 t2 _ _ offset H1 H2); try done.
  cbn [alg root]. unfold HMAC. rewrite Hv. symmetry. apply hmac_New_zero_padded.
  destruct H2 as (_ & Hok & _). apply view_length in Hok. cbn [root] in Hok.
  rewrite Hv, length_app, length_replicate in Hok. lia.
Qed.

(** X12. Over [HMAC(h)], a root key longer than the block size of [h] and
    the digest of that key under [h] give trees that derive the same keys
    at every offset, once the depth is at least one: [hmac.New] hashes a
    key that is longer than a block. *)
Theorem Key_HMAC_long_root h w1 t1 w2 t2 r1 r2 B M d f offset :
  tree_at w1 t1 (MkTree r1 (HMAC h) B M d f) ->
  tree_at w2 t2 (MkTree r2 (HMAC h) B M d f) ->
  (hblock h < len r1)%nat ->
  view w2 r2 = hfinal h (view w1 r1) ->
  (len r2 <= hblock h)%nat ->
  1 <= d ->
  same_outcome (Key t1 offset w1) (Key t2 offset w2).
Proof.
  intros H1 H2 Hlong Hv Hfit Hd.
  apply (Key_same_keyed_root w1 t1 w2 t2 _ _ offset H1 H2); try done.
  cbn [alg root]. unfold HMAC. rewrite Hv. apply hmac_New_long_key.
  - destruct H1 as (_ & Hok & _). apply view_length in Hok. cbn [root] in Hok. lia.
  - destruct H2 as (_ & Hok & _). apply view_length in Hok. cbn [root] in Hok.
    rewrite Hv in Hok. lia.
Qed.

End RootKeys.

(** ** The tests *)

Lemma slice_ok_preserved D w w' s :
  preserves D w w' -> base s ∈ D -> slice_ok w s -> slice_ok w' s.
Proof.
  intros [Hp _] Hin (a & Ha & Hr). exists a. split; [|done]. by rewrite Hp.
Qed.

Lemma show_all_preserved w w' ss l :
  preserves (dom (arrays w)) w w' -> show_all w ss l -> show_all w' ss l.
Proof.
  intros Hpres Hall. eapply Forall2_impl; [exact Hall|].
  intros s b [Hok Hv]. pose proof (slice_ok_dom _ _ Hok) as Hin. split.
  - by apply (slice_ok_preserved (dom (arrays w)) w w').
  - rewrite <- Hv. by apply (view_preserved (dom (arrays w)) w w').
Qed.

Lemma bytes_lit_spec p w :
  let l := fresh (dom (arrays w)) in
  let s := Slice l 0 (length p) (length p) in
  bytes_lit p w = (Ok s, add_array l p w) /\
  slice_ok (add_array l p w) s /\ view (add_array l p w) s = p /\
  preserves (dom (arrays w)) w (add_array l p w).
Proof.
  intros l s. split; [done|]. split.
  { exists p. unfold add_array, s. cbn. rewrite lookup_insert_eq. split; [done|lia]. }
  split.
  { unfold view, read_array, add_array, s. cbn. rewrite lookup_insert_eq. cbn.
    by rewrite drop_0, firstn_all. }
  split; [|done]. intros l0 Hl0. unfold add_array. cbn.
  rewrite lookup_insert_ne; [done|]. intros <-. by apply is_fresh in Hl0.
Qed.

Lemma literals_spec l : forall w,
  exists ss w',
    literals l w = (Ok ss, w') /\ show_all w' ss l /\
    preserves (dom (arrays w)) w w' /\ trace w' = trace w /\
    dom (arrays w) ⊆ dom (arrays w').
Proof.
  induction l as [|p l IH]; intros w.
  - exists [], w. split; [done|]. split; [constructor|].
    split; [apply preserves_refl|]. done.
  - cbn [literals]. unfold bind.
    destruct (bytes_lit_spec p w) as (-> & Hok & Hv & Hpres).
    set (w1 := add_array _ p w) in *.
    destruct (IH w1) as (ss & w' & -> & Hall & Hpres' & Htr & Hsub).
    eexists _, w'. split; [reflexivity|].
    assert (dom (arrays w) ⊆ dom (arrays w1)) as Hsub1.
    { unfold w1, add_array. cbn. rewrite dom_insert_L. set_solver. }
    split.
    { constructor; [|done]. pose proof (slice_ok_dom _ _ Hok) as Hin. split.
      - by apply (slice_ok_preserved (dom (arrays w1)) w1 w').
      - etrans; [|exact Hv]. by apply (view_preserved (dom (arrays w1)) w1 w'). }
    split.
    { eapply preserves_trans; [exact Hpres|].
      destruct Hpres' as [Hp Ht]. split; [|done]. intros l0 Hl0. apply Hp. set_solver. }
    split; [done|]. set_solver.
Qed.

(** The expected keys are the digests of the one round of the test tree. *)
Lemma TestKey_keys_derive j : (j < 16)%nat ->
  TestKey_keys !! j = Some (derive (HMAC md5_New) yay 0 (Z.of_nat j / 2)).
Proof.
  intros Hj. do 16 (destruct j as [|j]; [vm_compute; reflexivity|]). lia.
Qed.

Section TestKeyFacts.
Context `{Platform}.

Hypothesis Hlog : finite_nonzero (Log (of_uint64 8)).
Hypothesis Hpow : to_uint64 (Pow (of_uint64 8) (of_uint64 0)) = 1.

Lemma TestKey_loop_spec m : forall keys tree key i R w,
  let tr := MkTree key (HMAC md5_New) 2 16 (depth_of 2 16 (of_uint64 8)) (of_uint64 8) in
  tree_at w tree tr -> view w key = yay -> show_all w keys TestKey_keys ->
  0 <= i -> i + Z.of_nat m = 16 ->
  exists w',
    TestKey_loop m keys tree i (Testing R w) = (Ok tt, Testing R w') /\
    preserves (dom (arrays w)) w w'.
Proof.
  induction m as [|m IH]; intros keys tree key i R w tr Htree Hview Hkeys Hi Hm.
  - exists w. split; [done|apply preserves_refl].
  - cbn [TestKey_loop]. unfold mbind, Test_bind, run at 1. cbn [heap reports].
    destruct (Key_spec w tree tr i Htree) as (w1 & Hpres & _ & Hres);
      [cbn [maxSize tr]; lia|].
    change (root tr) with key in Hres. rewrite Hview in Hres.
    unfold tr in Hres. rewrite test_key_of in Hres by done. fold tr in Hres.
    destruct Hres as (v & -> & Hv & Hvok & _).
    (* keys[i] *)
    pose proof (TestKey_keys_derive (Z.to_nat i)) as Hexp.
    rewrite Z2Nat.id in Hexp by lia. specialize (Hexp ltac:(lia)).
    destruct (Forall2_lookup_r _ _ _ _ _ Hkeys Hexp) as (want & Hwant & Hwok & Hwv).
    unfold run at 1, index. cbn [heap reports]. rewrite Hwant. unfold ret at 1.
    (* bytes.Equal *)
    assert (view w1 want = view w want) as Hw1.
    { eapply view_preserved; [exact Hpres|]. by apply slice_ok_dom. }
    unfold run at 1, bytes_Equal, bind, load, ret. cbn [heap reports].
    rewrite Hv, Hw1, Hwv. rewrite bool_decide_eq_true_2 by done.
    cbn [negb]. unfold mret at 1, Test_ret.
    assert (wrap64 (i + 1) = i + 1) as -> by (apply Z.mod_small; lia).
    destruct (tree_at_preserved w w1 tree tr Htree Hpres) as [Htree1 Hroot1].
    destruct (IH keys tree key (i + 1) R w1) as (w' & Hloop & Hpres');
      [done|by rewrite <- Hview|by eapply show_all_preserved|lia|lia|].
    exists w'. split; [exact Hloop|].
    eapply preserves_trans; [exact Hpres|].
    destruct Hpres' as [Hp Ht]. split; [|done]. intros l0 Hl0. apply Hp.
    by eapply preserves_dom.
Qed.

(** X14. [TestKey] passes: started in any state, on every platform whose
    [Log 8] is a finite number other than zero and whose [Pow 8 0] converts
    to one, it runs its sixteen calls of [Key] on one tree, one after the
    other, without a panic, finds each key equal to the expected one, and
    reports no failure. *)
Theorem TestKey_passes s :
  exists s', TestKey s = (Ok tt, s') /\ reports s' = reports s.
Proof.
  destruct s as [R w]. unfold TestKey, mbind, Test_bind, run at 1. cbn [heap reports].
  destruct (literals_spec TestKey_keys w) as (keys & w1 & -> & Hkeys & _ & _ & _).
  unfold run at 1. cbn [heap reports].
  destruct (bytes_lit_spec yay w1) as (-> & Hok & Hv & Hpres).
  set (key := Slice _ 0 _ _) in *. set (w2 := add_array _ yay w1) in *.
  unfold run at 1. cbn [heap reports]. rewrite New_spec.
  set (t := fresh (dom (trees w2))).
  set (tr := MkTree key _ _ _ _ _). set (w3 := World _ _ _).
  assert (tree_at w3 t tr) as Htree.
  { split; [unfold w3; cbn; by rewrite lookup_insert_eq|].
    split; [destruct Hok as (a & Ha & Hr); by exists a|].
    unfold tr. cbn. split; [lia|]. split; [lia|]. apply to_uint64_range. }
  assert (show_all w3 keys TestKey_keys) as Hkeys3.
  { pose proof (show_all_preserved _ _ _ _ Hpres Hkeys) as Hk2.
    eapply Forall2_impl; [exact Hk2|]. intros s0 b [(a & Ha & Hr) Hvb].
    split; [by exists a|done]. }
  destruct (TestKey_loop_spec 16 keys t key 0 R w3) as (w' & Hloop & _);
    [done|done|done|lia|lia|].
  change (Z.to_nat 16) with 16%nat.
  exists (Testing R w'). split; [exact Hloop|done].
Qed.

End TestKeyFacts.

Section TestOffsetFacts.
Context `{Platform}.

(** X15. [TestOffsetTooGreat] passes, on every platform and from every
    state: whatever depth [New] computes for block size 2, maximum size 100
    and factor 8, [Key(1000)] panics with "offset greater than maximum
    size" before it hashes anything, the deferred function recovers that
    very string, and the test reports no failure and ends without a
    panic. *)
Theorem TestOffsetTooGreat_passes s :
  exists s',
    TestOffsetTooGreat s = (Ok tt, s') /\
    reports s' = reports s /\
    trace (heap s') = trace (heap s).
Proof.
  destruct s as [R w]. unfold TestOffsetTooGreat, defer_recover.
  unfold mbind, Test_bind, run at 1. cbn [heap reports].
  destruct (bytes_lit_spec yay w) as (-> & _ & _ & _).
  unfold run at 1. cbn [heap reports]. rewrite New_spec.
  unfold run at 1. cbn [heap reports].
  erewrite Key_out_of_range; [|cbn; by rewrite lookup_insert_eq|cbn; lia].
  cbn. eexists. split; [reflexivity|]. done.
Qed.

End TestOffsetFacts.

(** ** The benchmark *)

Lemma sha256_round_length w st i :
  length st = 8%nat -> length (SHA256.round w st i) = 8%nat.
Proof.
  intros Hl. do 9 (destruct st as [|? st]; try done).
Qed.

Lemma sha256_rounds_length w l : forall st,
  length st = 8%nat -> length (fold_left (SHA256.round w) l st) = 8%nat.
Proof.
  induction l as [|i l IH]; intros st Hl; [done|].
  cbn [fold_left]. apply IH. by apply sha256_round_length.
Qed.

Lemma sha256_block_length st blk :
  length st = 8%nat -> length (SHA256.block st blk) = 8%nat.
Proof.
  intros Hl. unfold SHA256.block. rewrite length_zip_with.
  rewrite sha256_rounds_length by done. lia.
Qed.

Lemma sha256_blocks_length n : forall st bs,
  length st = 8%nat -> length (SHA256.blocks n st bs) = 8%nat.
Proof.
  induction n as [|n IH]; intros st bs Hl; [done|].
  cbn [SHA256.blocks]. apply IH. by apply sha256_block_length.
Qed.

Lemma sha256_sum_length m : length (SHA256.sum m) = 32%nat.
Proof.
  unfold SHA256.sum.
  pose proof (sha256_blocks_length (length (SHA256.pad m) / 64)%nat SHA256.init
                (SHA256.pad m) eq_refl) as Hl.
  destruct (SHA256.blocks _ _ _) as [|a st]; [done|].
  do 8 (destruct st as [|? st]; try done).
Qed.

Lemma HMAC_sha256_fixed_size : fixed_size (HMAC sha256_New) 32.
Proof.
  intros key data. unfold hash_digest, hash_write, HMAC, hmac_New.
  cbn [hfinal hdata hsize hblock sha256_New]. apply sha256_sum_length.
Qed.

Section Benchmark.
Context `{Platform}.

Lemma BenchmarkKey_loop_spec m : forall w t tr,
  tree_at w t tr -> alg tr = HMAC sha256_New -> len (root tr) = 32%nat ->
  0 <= maxSize tr ->
  (forall level, 1 <= level <= depth tr -> level_blockSize tr level <> 0) ->
  exists w',
    BenchmarkKey_loop m t w = (Ok tt, w') /\
    preserves (dom (arrays w)) w w' /\
    n_arrays w' = (n_arrays w + 2 * m)%nat /\
    length (trace w') = (length (trace w) + 3 * Z.to_nat (depth tr) * m)%nat.
Proof.
  induction m as [|m IH]; intros w t tr Htree Halg Hlen Hmax Hnz.
  - exists w. split; [done|]. split; [apply preserves_refl|]. split; lia.
  - cbn [BenchmarkKey_loop]. unfold bind.
    destruct (Key_spec w t tr 0 Htree Hmax) as (w1 & Hpres & Htr & Hres).
    assert (0 <= depth tr < 2 ^ 64) as Hd by (destruct Htree as (_ & _ & _ & _ & ?); done).
    destruct (key_of tr (view w (root tr)) 0) as [kf|] eqn:Hkey.
    2:{ apply key_of_None in Hkey; [|lia]. destruct Hkey as (level & Hl & Hz).
        by apply Hnz in Hz. }
    destruct Hres as (s & HKey & _). rewrite HKey.
    destruct (walk_rounds _ _ _ _ _ _ Hkey) as (l & Hll & Hl & _).
    assert (fixed_size (alg tr) 32) as Hfix by (rewrite Halg; apply HMAC_sha256_fixed_size).
    assert (n_arrays w1 = (n_arrays w + 2)%nat) as Hn.
    { pose proof (Key_eq w t tr 0 (proj1 Htree) Hmax) as Heq. cbv zeta in Heq.
      rewrite HKey in Heq. symmetry in Heq.
      match type of Heq with Key_loop _ _ _ ?buf ?k _ ?w3 = _ =>
        assert (n_arrays w3 = (n_arrays w + 2)%nat) as Hw3
          by (rewrite n_arrays_upd, !n_arrays_fresh; lia);
        destruct (Key_loop_allocs (Z.to_nat (depth tr)) w3 t tr 0 buf k 0 32)
          as (r1 & w1' & HK & _ & Hsame & _); try done; try lia
      end.
      { apply Htree. }
      rewrite Heq in HK. injection HK as <- <-.
      rewrite Hsame by (cbn [cap]; lia). exact Hw3. }
    destruct (tree_at_preserved w w1 t tr Htree Hpres) as [Htree1 _].
    destruct (IH w1 t tr Htree1 Halg Hlen Hmax Hnz) as (w' & -> & Hpres' & Hn' & Htr').
    exists w'. split; [done|]. split.
    { eapply preserves_trans; [exact Hpres|].
      destruct Hpres' as [Hp Ht]. split; [|done]. intros l0 Hl0. apply Hp.
      by eapply preserves_dom. }
    split; [lia|].
    rewrite Htr', Htr, length_app, Hl, rounds_length, Hll. lia.
Qed.

(** X16. [BenchmarkKey], for every [b.N], on every platform on which no
    level of its tree (root key of 32 zero bytes, HMAC-SHA-256, block size
    1024, maximum size [2^32], factor 8) has a block size that is zero in
    64 bits: the calls of [Key(0)] all return, none panics; the arrays that
    existed are unchanged; the whole run allocates one array for the root
    key and two for each call, none for the digests, which fit in the
    working key; and it does three hashing events (keyed hash, write,
    digest) for each level of each call. *)
Theorem BenchmarkKey_runs N w :
  (forall level, 1 <= level <= depth_of 1024 (2 ^ 32) (of_uint64 8) ->
     wrap64 (to_uint64 (Pow (of_uint64 8) (of_uint64 (level - 1))) * 1024) <> 0) ->
  exists w',
    BenchmarkKey N w = (Ok tt, w') /\
    (forall l, l ∈ dom (arrays w) -> arrays w' !! l = arrays w !! l) /\
    n_arrays w' = (n_arrays w + 1 + 2 * Z.to_nat N)%nat /\
    length (trace w') =
      (length (trace w)
       + 3 * Z.to_nat (depth_of 1024 (2 ^ 32) (of_uint64 8)) * Z.to_nat N)%nat.
Proof.
  intros Hnz. unfold BenchmarkKey, bind at 1, make, bind at 1, alloc_array, ret.
  set (l := fresh (dom (arrays w))). set (w1 := add_array l (replicate 32 0) w).
  unfold bind. rewrite New_spec.
  set (t := fresh (dom (trees w1))).
  set (tr := MkTree _ _ _ _ _ _). set (w2 := World _ _ _).
  assert (tree_at w2 t tr) as Htree.
  { split; [unfold w2; cbn; by rewrite lookup_insert_eq|].
    split.
    { exists (replicate 32 0). unfold w2, w1, add_array, tr. cbn.
      rewrite lookup_insert_eq. split; [done|]. cbn. lia. }
    unfold tr. cbn. split; [lia|]. split; [lia|]. apply to_uint64_range. }
  destruct (BenchmarkKey_loop_spec (Z.to_nat N) w2 t tr Htree) as (w' & -> & Hpres & Hn & Htr);
    [done|done|unfold tr; cbn; lia|exact Hnz|].
  exists w'. split; [done|]. split.
  { intros l0 Hl0. destruct Hpres as [Hp _]. rewrite Hp.
    - unfold w2, w1, add_array. cbn. rewrite lookup_insert_ne; [done|].
      intros <-. by apply is_fresh in Hl0.
    - unfold w2, w1, add_array. cbn. rewrite dom_insert_L. set_solver. }
  split.
  { rewrite Hn. change (n_arrays w2) with (n_arrays w1). unfold w1, l.
    rewrite n_arrays_fresh. lia. }
  rewrite Htr. done.
Qed.

End Benchmark.

(** ** The further theorems at concrete trees *)

Lemma world_with_at rootKey :
  tree_at (world_with rootKey) 1
    (MkTree (Slice 1 0 (length rootKey) (length rootKey)) (HMAC md5_New)
            2 16 (depth_of (H:=portable) 2 16 (of_uint64 8)) (of_uint64 8)).
Proof.
  split; [reflexivity|]. split.
  { exists rootKey. split; [reflexivity|]. cbn. lia. }
  cbn. split; [lia|]. split; [lia|]. apply to_uint64_range.
Qed.

(** X1 at block size [2^35], maximum size [2^64 - 1], factor 2: level 30
    has block size zero. *)
Lemma Key_panics_witness :
  fst (Key (H:=portable) 1 0 (world_of (tree_of (2 ^ 35) max_uint64 two)))
  = Panicked DivideByZero.
Proof.
  apply (Key_panics (H:=portable) _ 1 (tree_of (2 ^ 35) max_uint64 two)).
  - apply tree_of_at; unfold max_uint64; lia.
  - right. split; [reflexivity|]. split; [cbn; unfold max_uint64; lia|].
    assert (depth (tree_of (2 ^ 35) max_uint64 two) = 30) as Hd by (vm_compute; reflexivity).
    exists 30. rewrite Hd. split; [lia|]. vm_compute. reflexivity.
Defined.

(** X2 at block size 0, maximum size 16, factor 8, whose depth the portable
    platform makes [2^63]. *)
Lemma Key_blockSize_zero_witness :
  exists w',
    Key (H:=portable) 1 5 (world_of (tree_of 0 16 (of_uint64 8)))
    = (Panicked DivideByZero, w') /\ trace w' = [].
Proof.
  destruct (Key_blockSize_zero (H:=portable) (world_of (tree_of 0 16 (of_uint64 8))) 1
                               (tree_of 0 16 (of_uint64 8)) 5)
    as (w' & HK & Htr & _).
  - apply tree_of_at; lia.
  - reflexivity.
  - assert (depth (tree_of 0 16 (of_uint64 8)) = 2 ^ 63) as -> by (vm_compute; reflexivity).
    lia.
  - cbn. lia.
  - exists w'. split; [exact HK|exact Htr].
Defined.

(** X3 at the tree of the test: one round. *)
Lemma Key_hashing_rounds_witness :
  exists s w' l,
    Key (H:=portable) 1 0 (world_of test_tree) = (Ok s, w') /\
    length l = 1%nat /\ trace w' = rounds l /\ chained yay l (view w' s).
Proof.
  destruct test_tree_runs as (s & w' & Hs).
  destruct (Key_hashing_rounds (H:=portable) (world_of test_tree) 1 test_tree 0 s w'
              test_tree_at Hs) as (l & Hlen & Htr & Hch).
  exists s, w', l. split; [exact Hs|].
  rewrite test_tree_depth in Hlen. split; [exact Hlen|]. split; [exact Htr|exact Hch].
Defined.

(** X4 at the tree of the test: the root key has 3 bytes, the digest 16,
    so three arrays are added to the one of the root key. *)
Lemma Key_allocations_witness :
  exists s w',
    Key (H:=portable) 1 0 (world_of test_tree) = (Ok s, w') /\ n_arrays w' = 4%nat.
Proof.
  destruct test_tree_runs as (s & w' & Hs). exists s, w'. split; [exact Hs|].
  destruct (Key_allocations (H:=portable) (world_of test_tree) 1 test_tree 0 16 (Ok s) w')
    as (_ & _ & Hn).
  - reflexivity.
  - rewrite test_tree_depth. lia.
  - exact HMAC_md5_fixed_size.
  - exact Hs.
  - rewrite (Hn s eq_refl). vm_compute. reflexivity.
Defined.

(** X5 at the tree of the test: [Key(3)] after [Key(0)]. *)
Lemma Key_calls_independent_witness :
  same_outcome (Key (H:=portable) 1 3 (world_of test_tree))
               (Key (H:=portable) 1 3 (snd (Key (H:=portable) 1 0 (world_of test_tree)))).
Proof.
  destruct (Key_calls_independent (H:=portable) (world_of test_tree) 1 test_tree 0
              1 test_tree 3
              (fst (Key (H:=portable) 1 0 (world_of test_tree)))
              (snd (Key (H:=portable) 1 0 (world_of test_tree))))
    as (_ & _ & Hsame); [exact test_tree_at|exact test_tree_at|apply surjective_pairing|].
  exact Hsame.
Defined.

(** X6: the tree of the test is built on the key "yay", the caller then
    writes the bytes 1, 2, 3 over the key, and [Key(0)] derives from
    those. *)
Lemma New_shares_the_root_key_witness :
  exists s w3,
    Key (H:=portable) 1 0
        (snd (store_at 1 0 [1; 2; 3]
                (snd (New (H:=portable) (Slice 1 0 3 3) (HMAC md5_New) 2 16 (of_uint64 8)
                          key_world))))
    = (Ok s, w3) /\
    view w3 s = derive (HMAC md5_New) [1; 2; 3] 0 0.
Proof.
  destruct (New_shares_the_root_key (H:=portable) (Slice 1 0 3 3) (HMAC md5_New) 2 16
              (of_uint64 8) key_world [1; 2; 3] 0) as (_ & _ & _ & Hres).
  - exists yay. split; [reflexivity|]. cbn. lia.
  - lia.
  - lia.
  - reflexivity.
  - assert (Key_result (H:=portable)
              (MkTree (Slice 1 0 3 3) (HMAC md5_New) 2 16
                      (depth_of (H:=portable) 2 16 (of_uint64 8)) (of_uint64 8))
              [1; 2; 3] 0
            = Ok (derive (HMAC md5_New) [1; 2; 3] 0 0)) as Hk by (vm_compute; reflexivity).
    rewrite Hk in Hres. exact Hres.
Defined.

(** X7: a second tree built beside the tree of the test. *)
Lemma New_leaves_other_trees_witness :
  same_outcome
    (Key (H:=portable) 1 0 (world_of test_tree))
    (Key (H:=portable) 1 0
         (snd (New (H:=portable) (Slice 1 0 3 3) (HMAC md5_New) 4 64 (of_uint64 2)
                   (world_of test_tree)))).
Proof.
  destruct (New_leaves_other_trees (H:=portable) (Slice 1 0 3 3) (HMAC md5_New) 4 64
              (of_uint64 2) (world_of test_tree) 1 test_tree 0 test_tree_at)
    as (_ & _ & _ & _ & Hsame).
  exact Hsame.
Defined.

(** X8 at the tree of the test: offsets 2 and 3. *)
Lemma Key_same_block_no_overflow_witness :
  Key (H:=portable) 1 2 (world_of test_tree) = Key (H:=portable) 1 3 (world_of test_tree).
Proof.
  apply (Key_same_block_no_overflow (H:=portable) _ 1 test_tree).
  - exact test_tree_at.
  - cbn. lia.
  - cbn. lia.
  - reflexivity.
  - intros level Hl. rewrite test_tree_depth in Hl.
    assert (level = 1) as -> by lia. vm_compute. reflexivity.
Defined.

(** X9 at the tree of the test, whose factor is 8: offset 5. *)
Lemma Key_is_the_real_walk_witness :
  exists s w',
    Key (H:=portable) 1 5 (world_of test_tree) = (Ok s, w') /\
    view w' s = spec_key test_tree yay 5.
Proof.
  apply (Key_is_the_real_walk (H:=portable) (world_of test_tree) 1 test_tree 5 8).
  - exact test_tree_at.
  - cbn. lia.
  - vm_compute. reflexivity.
  - intros level Hl. rewrite test_tree_depth in Hl.
    assert (level = 1) as -> by lia. vm_compute. repeat split.
Defined.

(** X10: step counter 3 and node index 5. *)
Lemma PutUint64_round_trip_witness :
  exists w',
    (PutUint64 (Slice 1 0 16 16) 3;;;
     let* buf8 := slice_from (Slice 1 0 16 16) 8 in PutUint64 buf8 5) buffer_world
    = (Ok tt, w') /\
    le_word (take 8 (view w' (Slice 1 0 16 16))) = 3 /\
    le_word (drop 8 (view w' (Slice 1 0 16 16))) = 5.
Proof.
  destruct (PutUint64_round_trip buffer_world (Slice 1 0 16 16) 3 5)
    as (w' & Hrun & _ & Hi & Hy & _).
  - exists (replicate 16 0). split; [reflexivity|]. cbn. lia.
  - reflexivity.
  - lia.
  - lia.
  - exists w'. split; [exact Hrun|]. split; [exact Hi|exact Hy].
Defined.

(** X11: the root keys "yay" and "yay" followed by a zero byte. *)
Lemma Key_HMAC_zero_padded_root_witness :
  same_outcome (Key (H:=portable) 1 0 (world_with yay))
               (Key (H:=portable) 1 0 (world_with (yay ++ [0]))).
Proof.
  apply (Key_HMAC_zero_padded_root (H:=portable) md5_New (world_with yay) 1
           (world_with (yay ++ [0])) 1 (Slice 1 0 3 3) (Slice 1 0 4 4) 2 16
           (depth_of (H:=portable) 2 16 (of_uint64 8)) (of_uint64 8) 1 0).
  - exact (world_with_at yay).
  - exact (world_with_at (yay ++ [0])).
  - reflexivity.
  - vm_compute. lia.
  - assert (depth_of (H:=portable) 2 16 (of_uint64 8) = 1) as -> by (vm_compute; reflexivity).
    lia.
Defined.

(** X12: a root key of 70 bytes and its MD5 digest. *)
Lemma Key_HMAC_long_root_witness :
  same_outcome (Key (H:=portable) 1 0 (world_with long_key))
               (Key (H:=portable) 1 0 (world_with (MD5.sum long_key))).
Proof.
  assert (length (MD5.sum long_key) = 16%nat) as Hlen by apply md5_sum_length.
  pose proof (world_with_at (MD5.sum long_key)) as H2. rewrite Hlen in H2.
  apply (Key_HMAC_long_root (H:=portable) md5_New (world_with long_key) 1
           (world_with (MD5.sum long_key)) 1 (Slice 1 0 70 70) (Slice 1 0 16 16) 2 16
           (depth_of (H:=portable) 2 16 (of_uint64 8)) (of_uint64 8) 0).
  - exact (world_with_at long_key).
  - exact H2.
  - vm_compute. lia.
  - vm_compute. reflexivity.
  - vm_compute. lia.
  - assert (depth_of (H:=portable) 2 16 (of_uint64 8) = 1) as -> by (vm_compute; reflexivity).
    lia.
Defined.

(** X13 on the portable platform: block size 1024, maximum size [2^20],
    factor 1024. *)
Lemma depth_one_witness : depth_of (H:=portable) 1024 (2 ^ 20) (of_uint64 1024) = 1.
Proof.
  apply (depth_one (H:=portable)).
  - vm_compute. reflexivity.
  - vm_compute. exact I.
Defined.

(** X17 on the portable platform: block size 2, maximum size 16 and
    factor 1 (the depth comes out as [2^63]). *)
Lemma depth_of_zero_logarithm_witness :
  exists s, depth_of (H:=portable) 2 16 one
            = wrap64 (uint64_out_of_range (Platform:=portable) (S754_infinity s)).
Proof.
  apply (depth_of_zero_logarithm (H:=portable)).
  - vm_compute. exact I.
  - vm_compute. exact I.
Defined.

(** X14 on the portable platform, from the empty state. *)
Lemma TestKey_passes_witness :
  exists s', TestKey (H:=portable) (Testing [] empty_world) = (Ok tt, s') /\ reports s' = [].
Proof.
  apply (TestKey_passes (H:=portable)).
  - vm_compute. exact I.
  - vm_compute. reflexivity.
Defined.

(** X16 on the portable platform, for [b.N = 2], from the empty world: the
    depth is 8, so five arrays and 48 hashing events. *)
Lemma BenchmarkKey_runs_witness :
  exists w',
    BenchmarkKey (H:=portable) 2 empty_world = (Ok tt, w') /\
    n_arrays w' = 5%nat /\ length (trace w') = 48%nat.
Proof.
  destruct (BenchmarkKey_runs (H:=portable) 2 empty_world) as (w' & HB & _ & Hn & Htr).
  - assert (depth_of (H:=portable) 1024 (2 ^ 32) (of_uint64 8) = 8) as ->
      by (vm_compute; reflexivity).
    intros level Hl.
    assert (level = 1 \/ level = 2 \/ level = 3 \/ level = 4 \/
            level = 5 \/ level = 6 \/ level = 7 \/ level = 8) as Hcases by lia.
    repeat (destruct Hcases as [->|Hcases]; [vm_compute; discriminate|]).
    subst. vm_compute. discriminate.
  - exists w'. split; [exact HB|].
    assert (depth_of (H:=portable) 1024 (2 ^ 32) (of_uint64 8) = 8) as Hd
      by (vm_compute; reflexivity).
    rewrite Hd in Htr. split; [exact Hn|exact Htr].
Defined.
